(** * VRPTW constraint-programming model: instance transformation and model builder

    Shallow embedding of [src/vrp/vrptw.py].

    - the entries of the raw numpy arrays are finite float64 / int64 scalars;
      each is held as the rational [Q] it denotes.  The arithmetic numpy does
      on them ([x * 10], [np.floor(..).astype(int)]) is not exact: it is taken
      as the fields of [NumpyArith] together with the facts about it that the
      proofs use, so the statements about [instance2data] hold for whatever
      numpy computes (entries that are, or whose tenfold is, [nan] or
      infinite are outside the model);
    - Python [int]s are [Z];
    - numpy / dict failures ([ValueError], [IndexError], [KeyError]) are the
      [Raise] branch of a small error monad;
    - the docplex model is the list of expressions added to it, in order.
      docplex's own argument checks ([AssertionError] on a size that is not
      an integer, on a bound outside the interval range, on a negative
      transition distance, on an [alternative] without candidates) are not
      modelled: the embedded builder returns a model whenever the program
      does, and also in cases where docplex refuses.  That the embedded
      builder returns means that no array or dictionary access of the
      program fails;
    - what a solver may return for such a model is described by [feasible]. *)

From Stdlib Require Import ZArith QArith Qround Lia.
From stdpp Require Import base option list gmap.

Close Scope Q_scope.
Open Scope Z_scope.

(** ** Exceptions *)

Inductive exn := ValueError | IndexError | KeyError.

Inductive result (A : Type) : Type :=
| Ok (a : A)
| Raise (e : exn).
Arguments Ok {A} a.
Arguments Raise {A} e.

#[global] Instance result_ret : MRet result := @Ok.
#[global] Instance result_bind : MBind result := λ A B f m,
  match m with Ok a => f a | Raise e => Raise e end.

Definition is_Ok {A} (r : result A) : Prop :=
  match r with Ok _ => True | Raise _ => False end.

(** [for x in xs: s = body(s, x)] *)
Fixpoint for_each {S A} (body : S → A → result S) (s : S) (xs : list A) : result S :=
  match xs with
  | [] => Ok s
  | x :: xs' => s' ← body s x; for_each body s' xs'
  end.

(** [[f(x) for x in xs]] *)
Fixpoint comprehension {A B} (f : A → result B) (xs : list A) : result (list B) :=
  match xs with
  | [] => Ok []
  | x :: xs' => y ← f x; ys ← comprehension f xs'; Ok (y :: ys)
  end.

(** [range(lo, hi)] over Python ints. *)
Definition range (lo hi : Z) : list Z :=
  map (λ i : nat, lo + Z.of_nat i) (seq 0 (Z.to_nat (hi - lo))).

(** ** numpy arrays *)

(** [a[i]] on a one-dimensional array (or the rows of a two-dimensional one)
    with a Python int index: negative indices count from the end, anything
    outside [-len, len) raises [IndexError]. *)
Definition getitem {A} (a : list A) (i : Z) : result A :=
  let n := Z.of_nat (length a) in
  let i' := if i <? 0 then i + n else i in
  if (0 <=? i') && (i' <? n)
  then match a !! Z.to_nat i' with Some x => Ok x | None => Raise IndexError end
  else Raise IndexError.

(** [x, y = row] *)
Definition unpack2 {A} (row : list A) : result (A * A) :=
  match row with
  | [x; y] => Ok (x, y)
  | _ => Raise ValueError
  end.

Definition rows_have_shape (sh : nat * nat) (rs : list (list Q)) : bool :=
  (length rs =? sh.1)%nat && forallb (λ r, (length r =? sh.2)%nat) rs.

(** A two-dimensional numeric array: its [shape] and its rows. *)
Record ndarray2 := NdArray2 {
  shape : nat * nat;
  rows : list (list Q);
  rows_shape : rows_have_shape shape rows = true
}.

Definition cell (rs : list (list Q)) (i j : nat) : option Q :=
  rs !! i ≫= (.!! j).

(** [a[i, j]] for non-negative [i], [j]. *)
Definition getitem2 (a : ndarray2) (i j : nat) : result Q :=
  if (i <? (shape a).1)%nat && (j <? (shape a).2)%nat
  then match cell (rows a) i j with Some x => Ok x | None => Raise IndexError end
  else Raise IndexError.

(** [m[i, j] = v] on a matrix held as its rows. *)
Definition setitem2 (m : list (list Q)) (i j : nat) (v : Q) : result (list (list Q)) :=
  match m !! i with
  | Some r =>
      if (j <? length r)%nat then Ok (<[i := <[j := v]> r]> m) else Raise IndexError
  | None => Raise IndexError
  end.

(** [np.zeros((r, c))] *)
Definition zeros (r c : nat) : list (list Q) := replicate r (replicate c 0%Q).

(** numpy broadcasting of a two-dimensional value to shape [(r, c)]: every
    axis of the value has the target length or length one (which is then
    repeated); otherwise [ValueError]. *)
Definition broadcast_to (a : ndarray2) (r c : nat) : result (list (list Q)) :=
  let '(ar, ac) := shape a in
  if ((ar =? r)%nat || (ar =? 1)%nat) && ((ac =? c)%nat || (ac =? 1)%nat)
  then Ok (map (λ i, map (λ j,
             default 0%Q (cell (rows a) (if (ar =? 1)%nat then 0%nat else i)
                                        (if (ac =? 1)%nat then 0%nat else j)))
             (seq 0 c)) (seq 0 r))
  else Raise ValueError.

(** [m[:-1, :-1] = block] once [block] has been broadcast to the slice. *)
Definition assign_top_left (m block : list (list Q)) : list (list Q) :=
  zip_with (λ mrow brow, brow ++ drop (length brow) mrow) m block
    ++ drop (length block) m.

(** ** Problem data *)

(** The raw instance dictionary, one field per key read by [instance2data].
    The entries of [edge_weight] are values a float64 holds, so that copying
    them into the float64 [distance_matrix] leaves them as they are. *)
Record Instance := {
  inst_demand : list Q;
  inst_edge_weight : ndarray2;
  inst_service_time : list Q;
  inst_time_window : list (list Q);
  inst_vehicles : Z;
  inst_capacity : Z
}.

Record ProblemData := {
  num_vehicles : Z;
  capacity : Z;
  num_locations : Z;
  edge_weights : list (list Z);
  service_time : list Q;
  time_windows : list (list Q);
  demand : list Q
}.

(** [__post_init__] *)
Definition vehicles (data : ProblemData) : list Z := range 0 (num_vehicles data).
Definition clients (data : ProblemData) : list Z := range 1 (num_locations data - 1).
Definition locations (data : ProblemData) : list Z := range 0 (num_locations data).

(** One pass of the loop body of [instance2data] (lines 37-41). *)
Definition mirror_depot (ew : ndarray2) (num_locs : nat)
    (distance_matrix : list (list Q)) (idx : nat) : result (list (list Q)) :=
  a ← getitem2 ew 0 idx;
  distance_matrix ← setitem2 distance_matrix (num_locs - 1) idx a;
  b ← getitem2 ew idx 0;
  setitem2 distance_matrix idx (num_locs - 1) b.

(** Lines 33-41: the distance matrix before scaling. *)
Definition distance_matrix_of (instance : Instance) : result (list (list Q)) :=
  let num_locs := (length (inst_demand instance) + 1)%nat in
  let distance_matrix := zeros num_locs num_locs in
  block ← broadcast_to (inst_edge_weight instance) (num_locs - 1) (num_locs - 1);
  let distance_matrix := assign_top_left distance_matrix block in
  for_each (mirror_depot (inst_edge_weight instance) num_locs)
           distance_matrix (seq 0 (num_locs - 1)).

(** numpy's elementwise arithmetic on the entries, as [instance2data] uses
    it.  [distance_matrix] comes from [np.zeros] and is a float64 array
    whatever the raw matrix was; [service_time] and [time_window] keep the
    dtype they arrive with, which need not be the same for the two.

    - [times_10_float64 x] is [x * 10] on a float64 entry (the product
      rounded to the nearest float64);
    - [floor_astype_int y] is [np.floor(y).astype(int)] on a float64 entry;
    - [times_10_service_time x] and [times_10_time_window x] are [x * 10] in
      the dtype of the two arrays (rounded for float64, wrapped for int64).

    Two facts about them are used: [np.floor] is exact and so is the
    conversion of an integer-valued float64 that fits the narrowest integer
    type numpy converts to (32 bits), and [0.0 * 10] is [0.0]. *)
Record NumpyArith := {
  times_10_float64 : Q → Q;
  floor_astype_int : Q → Z;
  times_10_service_time : Q → Q;
  times_10_time_window : Q → Q;
  floor_astype_int_in_range y :
    - 2 ^ 31 ≤ Qfloor y < 2 ^ 31 → floor_astype_int y = Qfloor y;
  times_10_float64_0 : times_10_float64 0%Q = 0%Q
}.

(** [np.floor(x * 10).astype(int)] on one entry of the distance matrix. *)
Definition scale_floor (np : NumpyArith) (x : Q) : Z :=
  floor_astype_int np (times_10_float64 np x).

Definition instance2data (np : NumpyArith) (instance : Instance) : result ProblemData :=
  let num_locs := (length (inst_demand instance) + 1)%nat in
  distance_matrix ← distance_matrix_of instance;
  let distance_matrix := map (map (scale_floor np)) distance_matrix in
  let service_times := map (times_10_service_time np) (inst_service_time instance) in
  let time_windows := map (map (times_10_time_window np)) (inst_time_window instance) in
  Ok {| num_vehicles := inst_vehicles instance;
        capacity := inst_capacity instance;
        num_locations := Z.of_nat num_locs;
        edge_weights := distance_matrix;
        service_time := service_times;
        time_windows := time_windows;
        demand := inst_demand instance |}.

(** ** The docplex model *)

(** Variable names. [T_ i] is [f"T_{client}"], [T__ k i] is
    [f"T_{vehicle}_{location}"] and [R_ k] is [f"R_{vehicle}"]; the three
    formats never collide. *)
Inductive name :=
| T_ (client : Z)
| T__ (vehicle location : Z)
| R_ (vehicle : Z).

#[global] Instance name_eq_dec : EqDecision name.
Proof. solve_decision. Defined.

(** [docplex.cp.expression.INTERVAL_MAX] and the default domain
    [(0, INTERVAL_MAX)] of the start, end, length and size of an interval
    variable. *)
Definition INTERVAL_MAX : Z := 4503599627370494.
Definition DEFAULT_INTERVAL : Q * Q := (0%Q, inject_Z INTERVAL_MAX).

Record CpoIntervalVar := {
  iv_name : name;
  iv_optional : bool;
  iv_start : Q * Q;
  iv_end : Q * Q;
  iv_length : Q * Q;
  iv_size : Q * Q
}.

Record CpoSequenceVar := {
  sv_name : name;
  sv_intervals : list CpoIntervalVar
}.

(** [model.interval_var(name=.., size=.., optional=..)] *)
Definition interval_var (nm : name) (size : option Q) (optional : bool) : CpoIntervalVar :=
  {| iv_name := nm;
     iv_optional := optional;
     iv_start := DEFAULT_INTERVAL;
     iv_end := DEFAULT_INTERVAL;
     iv_length := DEFAULT_INTERVAL;
     iv_size := match size with Some s => (s, s) | None => DEFAULT_INTERVAL end |}.

Definition set_start_min (var : CpoIntervalVar) (mn : Q) : CpoIntervalVar :=
  {| iv_name := iv_name var; iv_optional := iv_optional var;
     iv_start := (mn, (iv_start var).2);
     iv_end := iv_end var; iv_length := iv_length var; iv_size := iv_size var |}.

Definition set_end_max (var : CpoIntervalVar) (mx : Q) : CpoIntervalVar :=
  {| iv_name := iv_name var; iv_optional := iv_optional var;
     iv_start := iv_start var;
     iv_end := ((iv_end var).1, mx);
     iv_length := iv_length var; iv_size := iv_size var |}.

(** [model.sequence_var(intervals, name=..)] *)
Definition sequence_var (intervals : list CpoIntervalVar) (nm : name) : CpoSequenceVar :=
  {| sv_name := nm; sv_intervals := intervals |}.

#[warning="-register-all"]
Inductive CpoExpr :=
| Const (q : Q)
| EndOf (v : CpoIntervalVar)
| PresenceOf (v : CpoIntervalVar)
| Sum (es : list CpoExpr)
| Minus (a b : CpoExpr).

(** What [model.add] and [model.minimize] receive. *)
Inductive CpoStatement :=
| Minimize (e : CpoExpr)
| Equal (a b : CpoExpr)
| NoOverlap (s : CpoSequenceVar) (distance_matrix : list (list Z))
| First (s : CpoSequenceVar) (v : CpoIntervalVar)
| Last (s : CpoSequenceVar) (v : CpoIntervalVar)
| Alternative (v : CpoIntervalVar) (array : list CpoIntervalVar).

(** A model is the list of what was added to it, oldest first. *)
Definition CpoModel := list CpoStatement.

Definition add (model : CpoModel) (st : CpoStatement) : CpoModel := model ++ [st].

(** [d[k]] on a dict. *)
Definition dict_get `{Countable K} {V} (d : gmap K V) (k : K) : result V :=
  match d !! k with Some v => Ok v | None => Raise KeyError end.

(** [itertools.product(xs, ys)] *)
Definition product {A B} (xs : list A) (ys : list B) : list (A * B) :=
  x ← xs; y ← ys; [(x, y)].

(** ** The model builder *)

Definition create_visit_variables (data : ProblemData) : result (gmap Z CpoIntervalVar) :=
  for_each (λ (visits : gmap Z CpoIntervalVar) client,
      service_time ← getitem (service_time data) client;
      let var := interval_var (T_ client) (Some service_time) false in
      row ← getitem (time_windows data) client;
      '(tw_early, tw_late) ← unpack2 row;
      let var := set_start_min var tw_early in
      let var := set_end_max var (tw_late + service_time)%Q in
      Ok (<[client := var]> visits))
    ∅ (clients data).

Definition create_vehicle_visit_variables (data : ProblemData) : gmap (Z * Z) CpoIntervalVar :=
  foldl (λ (vvisits : gmap (Z * Z) CpoIntervalVar) '(vehicle, location),
      let var := interval_var (T__ vehicle location) None true in
      <[(vehicle, location) := var]> vvisits)
    ∅ (product (vehicles data) (locations data)).

Definition create_route_variables (data : ProblemData)
    (vvisits : gmap (Z * Z) CpoIntervalVar) : result (gmap Z CpoSequenceVar) :=
  for_each (λ (routes : gmap Z CpoSequenceVar) vehicle,
      intervals ← comprehension (λ loc, dict_get vvisits (vehicle, loc)) (locations data);
      Ok (<[vehicle := sequence_var intervals (R_ vehicle)]> routes))
    ∅ (vehicles data).

Definition minimize_total_travel_time (model : CpoModel) (data : ProblemData)
    (vvisits : gmap (Z * Z) CpoIntervalVar) : result CpoModel :=
  let last := num_locations data - 1 in
  completion_times ←
    comprehension (λ k, v ← dict_get vvisits (k, last); Ok (EndOf v)) (vehicles data);
  service_times ← comprehension (λ i, getitem (service_time data) i) (clients data);
  Ok (add model (Minimize (Minus (Sum completion_times) (Sum (Const <$> service_times))))).

Definition no_overlap_between_visits (model : CpoModel) (data : ProblemData)
    (routes : gmap Z CpoSequenceVar) : result CpoModel :=
  for_each (λ model vehicle,
      route ← dict_get routes vehicle;
      Ok (add model (NoOverlap route (edge_weights data))))
    model (vehicles data).

Definition routes_start_and_end_at_depot (model : CpoModel) (data : ProblemData)
    (vvisits : gmap (Z * Z) CpoIntervalVar) (routes : gmap Z CpoSequenceVar)
    : result CpoModel :=
  for_each (λ model vehicle,
      let start_depot := 0 in
      first_visit ← dict_get vvisits (vehicle, start_depot);
      let model := add model (Equal (PresenceOf first_visit) (Const 1)) in
      let end_depot := num_locations data - 1 in
      last_visit ← dict_get vvisits (vehicle, end_depot);
      let model := add model (Equal (PresenceOf last_visit) (Const 1)) in
      route ← dict_get routes vehicle;
      let model := add model (First route first_visit) in
      route ← dict_get routes vehicle;
      Ok (add model (Last route last_visit)))
    model (vehicles data).

Definition assign_each_client_to_one_vehicle (model : CpoModel) (data : ProblemData)
    (visit : gmap Z CpoIntervalVar) (vvisits : gmap (Z * Z) CpoIntervalVar)
    : result CpoModel :=
  for_each (λ model client,
      optional ← comprehension (λ k, dict_get vvisits (k, client)) (vehicles data);
      v ← dict_get visit client;
      Ok (add model (Alternative v optional)))
    model (clients data).

Definition vehicle_routing_problem_time_windows (data : ProblemData) : result CpoModel :=
  let model : CpoModel := [] in
  visits ← create_visit_variables data;
  let vvisits := create_vehicle_visit_variables data in
  routes ← create_route_variables data vvisits;
  model ← minimize_total_travel_time model data vvisits;
  model ← no_overlap_between_visits model data routes;
  model ← routes_start_and_end_at_depot model data vvisits routes;
  model ← assign_each_client_to_one_vehicle model data visits vvisits;
  Ok model.

(** ** What a solver may return: solutions and feasibility

    docplex only records the model, and neither docplex nor the CP Optimizer
    engine is part of [src/].  What the recorded expressions mean is
    therefore written down here from the spec (sections 3 and 4.6 and the
    glossary) and, where the spec is silent (default domains, types of the
    intervals of a sequence), from docplex's documented defaults. *)

(** A solution gives every interval variable either nothing (absent) or
    integer start and end times, and every sequence variable the order of
    its present intervals. *)
Record Solution := {
  itv : name → option (Z * Z);
  order : name → list name
}.

Definition present (sol : Solution) (x : name) : Prop := is_Some (itv sol x).

Definition within (b : Q * Q) (z : Z) : Prop :=
  (b.1 <= inject_Z z)%Q ∧ (inject_Z z <= b.2)%Q.

(** Modelled from the spec: the meaning of an (optional) interval variable,
    which is CP Optimizer's.  An absent interval must be optional; a present
    one has start, end, length and size inside their domains (no intensity
    function is used, so size and length are both [end - start]). *)
Definition interval_ok (sol : Solution) (v : CpoIntervalVar) : Prop :=
  match itv sol (iv_name v) with
  | None => iv_optional v = true
  | Some (s, e) =>
      within (iv_start v) s ∧ within (iv_end v) e ∧
      within (iv_length v) (e - s) ∧ within (iv_size v) (e - s)
  end.

(** Modelled from the spec: the meaning of a sequence (route) variable,
    which is CP Optimizer's.  Its value is an ordering of exactly those of
    its intervals that are present. *)
Definition sequence_ok (sol : Solution) (s : CpoSequenceVar) : Prop :=
  Forall (interval_ok sol) (sv_intervals s) ∧
  NoDup (order sol (sv_name s)) ∧
  Forall (λ x, x ∈ iv_name <$> sv_intervals s ∧ present sol x) (order sol (sv_name s)) ∧
  Forall (λ v, present sol (iv_name v) → iv_name v ∈ order sol (sv_name s))
         (sv_intervals s).

(** No types are passed to [sequence_var], so the type of an interval, its
    row and column in a transition matrix, is its position in the list the
    sequence was built from. *)
Definition type_of (s : CpoSequenceVar) (x : name) : option nat :=
  fst <$> list_find (λ v, iv_name v = x) (sv_intervals s).

Definition transition (distance_matrix : list (list Z)) (ta tb : nat) : option Z :=
  distance_matrix !! ta ≫= (.!! tb).

(** [R] holds from every element of the list to every later one. *)
Fixpoint pairwise {A} (R : A → A → Prop) (l : list A) : Prop :=
  match l with
  | [] => True
  | x :: l' => Forall (R x) l' ∧ pairwise R l'
  end.

(** Modelled from the spec: what [no_overlap] with a transition matrix asks
    of an interval [a] sequenced before an interval [b] ([is_direct] is left
    at its default, so this holds for every later [b], the next one
    included): [a] ends before [b] starts, and by at least the transition
    distance between their types. *)
Definition precedes (sol : Solution) (s : CpoSequenceVar)
    (distance_matrix : list (list Z)) (a b : name) : Prop :=
  match itv sol a, itv sol b with
  | Some (_, ea), Some (sb, _) =>
      ea ≤ sb ∧
      match ta ← type_of s a; tb ← type_of s b; transition distance_matrix ta tb with
      | Some w => ea + w ≤ sb
      | None => True
      end
  | _, _ => True
  end.

Fixpoint expr_vars (e : CpoExpr) : list CpoIntervalVar :=
  match e with
  | Const _ => []
  | EndOf v => [v]
  | PresenceOf v => [v]
  | Sum es => concat (map expr_vars es)
  | Minus a b => expr_vars a ++ expr_vars b
  end.

Definition Qsum (qs : list Q) : Q := foldr Qplus 0%Q qs.

(** Modelled from the spec: the value of an expression in a solution.
    [end_of] of an absent interval is 0; [presence_of] is 0 or 1. *)
Fixpoint eval (sol : Solution) (e : CpoExpr) : Q :=
  match e with
  | Const q => q
  | EndOf v => match itv sol (iv_name v) with Some (_, e) => inject_Z e | None => 0%Q end
  | PresenceOf v => match itv sol (iv_name v) with Some _ => 1%Q | None => 0%Q end
  | Sum es => Qsum (map (eval sol) es)
  | Minus a b => (eval sol a - eval sol b)%Q
  end.

(** Modelled from the spec: when a solution satisfies a statement of the
    model, for each primitive the builder calls ([presence_of(..) == 1],
    [no_overlap], [first], [last], [alternative]).  Every statement also
    asks the variables it mentions to take values in their domains. *)
Definition sat (sol : Solution) (st : CpoStatement) : Prop :=
  match st with
  | Minimize e => Forall (interval_ok sol) (expr_vars e)
  | Equal a b =>
      Forall (interval_ok sol) (expr_vars a ++ expr_vars b) ∧
      (eval sol a == eval sol b)%Q
  | NoOverlap s distance_matrix =>
      sequence_ok sol s ∧
      pairwise (precedes sol s distance_matrix) (order sol (sv_name s))
  | First s v =>
      sequence_ok sol s ∧ interval_ok sol v ∧
      (present sol (iv_name v) → head (order sol (sv_name s)) = Some (iv_name v))
  | Last s v =>
      sequence_ok sol s ∧ interval_ok sol v ∧
      (present sol (iv_name v) → last (order sol (sv_name s)) = Some (iv_name v))
  | Alternative v array =>
      interval_ok sol v ∧ Forall (interval_ok sol) array ∧
      match itv sol (iv_name v) with
      | None => Forall (λ a, ¬ present sol (iv_name a)) array
      | Some se =>
          length (filter (λ a, present sol (iv_name a)) array) = 1%nat ∧
          Forall (λ a, present sol (iv_name a) → itv sol (iv_name a) = Some se) array
      end
  end.

(** A feasible assignment satisfies everything that was added to the model. *)
Definition feasible (model : CpoModel) (sol : Solution) : Prop :=
  Forall (sat sol) model.

(** The expression the model minimizes. *)
Fixpoint objective (model : CpoModel) : option CpoExpr :=
  match model with
  | [] => None
  | Minimize e :: _ => Some e
  | _ :: model' => objective model'
  end.

(** *** Feasibility is decidable *)

#[global] Instance Qle_decision (x y : Q) : Decision (x <= y)%Q.
Proof. unfold Qle. apply _. Defined.
#[global] Instance Qeq_decision (x y : Q) : Decision (x == y)%Q.
Proof. unfold Qeq. apply _. Defined.
#[global] Instance within_decision b z : Decision (within b z).
Proof. unfold within. apply _. Defined.
#[global] Instance present_decision sol x : Decision (present sol x).
Proof. unfold present. apply _. Defined.
#[global] Instance interval_ok_decision sol v : Decision (interval_ok sol v).
Proof. unfold interval_ok. destruct (itv sol (iv_name v)) as [[s e]|]; apply _. Defined.
#[global] Instance sequence_ok_decision sol s : Decision (sequence_ok sol s).
Proof. unfold sequence_ok. apply _. Defined.
#[global] Instance precedes_decision sol s M a b : Decision (precedes sol s M a b).
Proof.
  unfold precedes.
  destruct (itv sol a) as [[? ?]|]; [|apply _].
  destruct (itv sol b) as [[? ?]|]; [|apply _].
  destruct (_ ≫= _); apply _.
Defined.
#[global] Instance pairwise_decision {A} (R : A → A → Prop)
    `{∀ x y, Decision (R x y)} l : Decision (pairwise R l).
Proof. induction l; simpl; apply _. Defined.
#[global] Instance sat_decision sol st : Decision (sat sol st).
Proof.
  destruct st; simpl; try apply _.
  destruct (itv sol (iv_name v)); apply _.
Defined.
#[global] Instance feasible_decision model sol : Decision (feasible model sol).
Proof. unfold feasible. apply _. Defined.

(** ** Notions the statements below are written with *)

(** The matrix with [r] rows and [c] columns whose entry [(i, j)] is [f i j]. *)
Definition tabulate2 {A} (r c : nat) (f : nat → nat → A) : list (list A) :=
  map (λ i, map (f i) (seq 0 c)) (seq 0 r).

(** The entry [(i, j)] of a raw array, 0 outside its shape. *)
Definition item (a : ndarray2) (i j : nat) : Q := default 0%Q (cell (rows a) i j).

(** The matrix before scaling, for a raw matrix of the expected shape. *)
Definition extended (a : ndarray2) (n : nat) (i j : nat) : Q :=
  if (i <? n)%nat
  then (if (j <? n)%nat then item a i j else item a i 0)
  else (if (j <? n)%nat then item a 0 j else 0%Q).


(** [vvisits[(k, l)]] *)
Definition vehicle_visit (k l : Z) : CpoIntervalVar :=
  interval_var (T__ k l) None true.

(** [routes[k]] *)
Definition route (data : ProblemData) (k : Z) : CpoSequenceVar :=
  sequence_var (vehicle_visit k <$> locations data) (R_ k).

(** [visits[client]] for a client with the given service time and window. *)
Definition visit (client : Z) (st tw_early tw_late : Q) : CpoIntervalVar :=
  set_end_max (set_start_min (interval_var (T_ client) (Some st) false) tw_early)
              (tw_late + st)%Q.

(** What [create_visit_variables] computes for one client. *)
Definition visit_of (data : ProblemData) (client : Z) : result CpoIntervalVar :=
  st ← getitem (service_time data) client;
  row ← getitem (time_windows data) client;
  '(tw_early, tw_late) ← unpack2 row;
  Ok (visit client st tw_early tw_late).

(** The four statements [routes_start_and_end_at_depot] adds for one vehicle. *)
Definition depot_statements (data : ProblemData) (k : Z) : list CpoStatement :=
  [Equal (PresenceOf (vehicle_visit k 0)) (Const 1);
   Equal (PresenceOf (vehicle_visit k (num_locations data - 1))) (Const 1);
   First (route data k) (vehicle_visit k 0);
   Last (route data k) (vehicle_visit k (num_locations data - 1))].

(** The expression [minimize_total_travel_time] minimizes. *)
Definition travel_time (data : ProblemData) (service_times : list Q) : CpoExpr :=
  Minus (Sum ((λ k, EndOf (vehicle_visit k (num_locations data - 1))) <$> vehicles data))
        (Sum (Const <$> service_times)).

(** Integer sums. *)
Definition Zsum (zs : list Z) : Z := foldr Z.add 0 zs.

(** Length, start and end of an interval in a solution, 0 when absent. *)
Definition length_in (sol : Solution) (x : name) : Z :=
  match itv sol x with Some (s, e) => e - s | None => 0 end.
Definition start_in (sol : Solution) (x : name) : Z :=
  match itv sol x with Some (s, _) => s | None => 0 end.
Definition end_in (sol : Solution) (x : name) : Z :=
  match itv sol x with Some (_, e) => e | None => 0 end.

(** A raw instance whose arrays all describe the same [n] locations. *)
Definition valid_instance (instance : Instance) : Prop :=
  let n := length (inst_demand instance) in
  shape (inst_edge_weight instance) = (n, n) ∧
  length (inst_service_time instance) = n ∧
  length (inst_time_window instance) = n.

(** ** Concrete instances

    The arithmetic without rounding and without overflow.  It is what numpy
    computes on the entries of the instances below: small integers and the
    binary fractions 1/4, 1/2 and 7/4, whose tenfold is a float64. *)
Definition exact_arithmetic : NumpyArith :=
  {| times_10_float64 x := (x * 10)%Q;
     floor_astype_int := Qfloor;
     times_10_service_time x := (x * 10)%Q;
     times_10_time_window x := (x * 10)%Q;
     floor_astype_int_in_range := λ _ _, eq_refl;
     times_10_float64_0 := eq_refl |}.

(** One location whose distance to itself is not zero. *)
Definition nonzero_diagonal_instance : Instance :=
  {| inst_demand := [0%Q];
     inst_edge_weight := NdArray2 (1, 1)%nat [[1%Q]] eq_refl;
     inst_service_time := [0%Q];
     inst_time_window := [[0%Q; 100%Q]];
     inst_vehicles := 1; inst_capacity := 10 |}.

(** No demand at all, next to a 1 x 1 distance matrix. *)
Definition empty_demand_instance : Instance :=
  {| inst_demand := [];
     inst_edge_weight := NdArray2 (1, 1)%nat [[5%Q]] eq_refl;
     inst_service_time := [];
     inst_time_window := [];
     inst_vehicles := 1; inst_capacity := 10 |}.




(** One depot, two clients, two vehicles. *)
Definition ex_instance : Instance :=
  {| inst_demand := [0; 4; 6]%Q;
     inst_edge_weight :=
       NdArray2 (3, 3)%nat [[0; 1; 2]; [1; 0; 1]; [2; 1; 0]]%Q eq_refl;
     inst_service_time := [0; 1; 2]%Q;
     inst_time_window := [[0; 100]; [0; 50]; [0; 80]]%Q;
     inst_vehicles := 2; inst_capacity := 10 |}.

(** What [instance2data] returns on [ex_instance]. *)
Definition ex_data : ProblemData :=
  {| num_vehicles := 2; capacity := 10; num_locations := 4;
     edge_weights := [[0; 10; 20; 0]; [10; 0; 10; 10]; [20; 10; 0; 20]; [0; 10; 20; 0]];
     service_time := [0; 10; 20]%Q;
     time_windows := [[0; 1000]; [0; 500]; [0; 800]]%Q;
     demand := [0; 4; 6]%Q |}.

(** The model built from [ex_data]. *)
Definition ex_model : CpoModel :=
  Eval vm_compute in
    match vehicle_routing_problem_time_windows ex_data with
    | Ok model => model
    | Raise _ => []
    end.

(** Vehicle 0 serves client 1 and then client 2; vehicle 1 stays at the depot. *)
Definition ex_solution : Solution :=
  {| itv := λ x, match x with
                 | T_ 1 => Some (10, 20)
                 | T_ 2 => Some (30, 50)
                 | T__ 0 0 => Some (0, 0)
                 | T__ 0 1 => Some (10, 20)
                 | T__ 0 2 => Some (30, 50)
                 | T__ 0 3 => Some (70, 70)
                 | T__ 1 0 => Some (0, 0)
                 | T__ 1 3 => Some (0, 0)
                 | _ => None
                 end;
     order := λ x, match x with
                   | R_ 0 => [T__ 0 0; T__ 0 1; T__ 0 2; T__ 0 3]
                   | R_ 1 => [T__ 1 0; T__ 1 3]
                   | _ => []
                   end |}.

(** ** Reading a solution back

    [result2solution] of the script part: for every vehicle, the names of
    the intervals of its route, in the order of the solution. *)
Definition result2solution (data : ProblemData) (result : Solution) : list (list name) :=
  (λ vehicle, order result (R_ vehicle)) <$> vehicles data.

(** The location an interval named [T_{vehicle}_{location}] stands for. *)
Definition location_of (x : name) : Z :=
  match x with T__ _ location => location | _ => 0 end.

(** The distance travelled along a route: the sum of [edge_weights[i][j]]
    over the pairs of locations [i], [j] visited one right after the other
    (a pair outside the matrix counts 0). *)
Fixpoint route_travel (distance_matrix : list (list Z)) (route : list name) : Z :=
  match route with
  | a :: (b :: _) as route' =>
      default 0 (transition distance_matrix (Z.to_nat (location_of a))
                                            (Z.to_nat (location_of b)))
      + route_travel distance_matrix route'
  | _ => 0
  end.

(** The statement is an objective. *)
Definition is_Minimize (st : CpoStatement) : Prop :=
  match st with Minimize _ => True | _ => False end.

(** The distance from [a] to [b] as [route_travel] counts it. *)
Definition hop (distance_matrix : list (list Z)) (a b : name) : Z :=
  default 0 (transition distance_matrix (Z.to_nat (location_of a))
                                        (Z.to_nat (location_of b))).

(** * Proofs *)

(** ** The error monad and the two loop forms *)

Lemma bind_Ok {A B} (m : result A) (f : A → result B) (b : B) :
  m ≫= f = Ok b → ∃ a, m = Ok a ∧ f a = Ok b.
Proof. destruct m; simpl; [eauto | discriminate]. Qed.

Lemma is_Ok_bind {A B} (m : result A) (f : A → result B) :
  is_Ok (m ≫= f) → ∃ a, m = Ok a ∧ is_Ok (f a).
Proof. destruct m; simpl; [eauto | tauto]. Qed.

Lemma not_Ok_Raise {A} (r : result A) : ¬ is_Ok r → ∃ e, r = Raise e.
Proof. destruct r; simpl; [tauto | eauto]. Qed.

Ltac inv_bind H :=
  repeat match type of H with
  | _ ≫= _ = Ok _ =>
      let a := fresh "a" in let Ha := fresh "Ha" in
      apply bind_Ok in H as (a & Ha & H)
  | mbind _ _ = Ok _ =>
      let a := fresh "a" in let Ha := fresh "Ha" in
      apply bind_Ok in H as (a & Ha & H)
  end.

Lemma for_each_ext {S A} (f g : S → A → result S) s xs :
  (∀ s x, x ∈ xs → f s x = g s x) → for_each f s xs = for_each g s xs.
Proof.
  revert s. induction xs as [|x xs IH]; intros s Hfg; simpl; [done|].
  rewrite Hfg by left. destruct (g s x); simpl; [|done].
  apply IH. intros. apply Hfg. by right.
Qed.

Lemma for_each_is_Ok_elem {S A} (body : S → A → result S) s xs x :
  is_Ok (for_each body s xs) → x ∈ xs → ∃ s', is_Ok (body s' x).
Proof.
  revert s. induction xs as [|y xs IH]; intros s Hok Hx; [by apply elem_of_nil in Hx|].
  simpl in Hok. apply is_Ok_bind in Hok as (s1 & Hy & Hok).
  apply elem_of_cons in Hx as [->|Hx]; [|eauto].
  exists s. by rewrite Hy.
Qed.

Lemma comprehension_Ok_map {A B} (f : A → result B) (g : A → B) xs ys :
  (∀ x y, x ∈ xs → f x = Ok y → y = g x) →
  comprehension f xs = Ok ys → ys = g <$> xs.
Proof.
  revert ys. induction xs as [|x xs IH]; intros ys Hg H; simpl in *.
  - by injection H as <-.
  - inv_bind H. injection H as <-. simpl. f_equal.
    + apply Hg; [left | done].
    + apply IH; [|done]. intros. apply Hg; [by right | done].
Qed.

Lemma comprehension_total {A B} (f : A → result B) xs :
  (∀ x, x ∈ xs → is_Ok (f x)) → is_Ok (comprehension f xs).
Proof.
  induction xs as [|x xs IH]; intros H; simpl; [done|].
  destruct (f x) eqn:E; simpl.
  - destruct (comprehension f xs) eqn:E'; simpl; [done|].
    apply IH. intros. apply H. by right.
  - specialize (H x). rewrite E in H. apply H. left.
Qed.

Lemma for_each_total {S A} (body : S → A → result S) s xs :
  (∀ s x, x ∈ xs → is_Ok (body s x)) → is_Ok (for_each body s xs).
Proof.
  revert s. induction xs as [|x xs IH]; intros s H; simpl; [done|].
  destruct (body s x) eqn:E; simpl.
  - apply IH. intros. apply H. by right.
  - specialize (H s x). rewrite E in H. apply H. left.
Qed.

(** ** Ranges *)

Lemma elem_of_range lo hi i : i ∈ range lo hi ↔ lo ≤ i < hi.
Proof.
  unfold range. rewrite list_elem_of_fmap. setoid_rewrite elem_of_seq. split.
  - intros (k & -> & Hk). lia.
  - intros H. exists (Z.to_nat (i - lo)). lia.
Qed.

Lemma elem_of_vehicles data k : k ∈ vehicles data ↔ 0 ≤ k < num_vehicles data.
Proof. apply elem_of_range. Qed.

Lemma elem_of_clients data c : c ∈ clients data ↔ 1 ≤ c ≤ num_locations data - 2.
Proof. unfold clients. rewrite elem_of_range. lia. Qed.

Lemma elem_of_locations data l : l ∈ locations data ↔ 0 ≤ l < num_locations data.
Proof. apply elem_of_range. Qed.

Lemma NoDup_range lo hi : NoDup (range lo hi).
Proof.
  unfold range. apply NoDup_fmap_2; [|apply NoDup_seq].
  intros a b. lia.
Qed.

Lemma lookup_range lo hi (i : nat) :
  Z.of_nat i < hi - lo → range lo hi !! i = Some (lo + Z.of_nat i).
Proof.
  intros H. unfold range. rewrite list_lookup_fmap, lookup_seq_lt by lia. done.
Qed.

(** ** Matrices as tables *)

Lemma tabulate2_row {A} r c (f : nat → nat → A) i :
  (i < r)%nat → tabulate2 r c f !! i = Some (map (f i) (seq 0 c)).
Proof. intros. unfold tabulate2. by rewrite list_lookup_fmap, lookup_seq_lt. Qed.

Lemma tabulate2_row_None {A} r c (f : nat → nat → A) i :
  (r ≤ i)%nat → tabulate2 r c f !! i = None.
Proof.
  intros. apply lookup_ge_None. unfold tabulate2.
  by rewrite length_fmap, length_seq.
Qed.

Lemma tabulate2_ext {A} r c (f g : nat → nat → A) :
  (∀ i j, (i < r)%nat → (j < c)%nat → f i j = g i j) →
  tabulate2 r c f = tabulate2 r c g.
Proof.
  intros H. unfold tabulate2.
  apply map_ext_in. intros i [_ Hi]%in_seq.
  apply map_ext_in. intros j [_ Hj]%in_seq. apply H; lia.
Qed.


Lemma insert_tabulate {A} c (f : nat → A) j v :
  <[j := v]> (map f (seq 0 c)) = map (λ b, if (b =? j)%nat then v else f b) (seq 0 c).
Proof.
  apply list_eq. intros b.
  destruct (decide (b < c)%nat) as [Hb|Hb].
  - rewrite list_lookup_fmap, lookup_seq_lt by done. simpl.
    destruct (Nat.eqb_spec b j) as [->|Hne].
    + rewrite list_lookup_insert_eq; [done|]. by rewrite length_fmap, length_seq.
    + rewrite list_lookup_insert_ne by done.
      by rewrite list_lookup_fmap, lookup_seq_lt.
  - rewrite !(proj2 (lookup_ge_None _ _)); [done| |].
    + rewrite length_fmap, length_seq. lia.
    + rewrite length_insert, length_fmap, length_seq. lia.
Qed.

Lemma setitem2_tabulate2 r c (f : nat → nat → Q) i j v :
  (i < r)%nat → (j < c)%nat →
  setitem2 (tabulate2 r c f) i j v
  = Ok (tabulate2 r c (λ a b, if (a =? i)%nat && (b =? j)%nat then v else f a b)).
Proof.
  intros Hi Hj. unfold setitem2. rewrite tabulate2_row by done.
  rewrite length_fmap, length_seq.
  destruct (Nat.ltb_spec j c); [|lia]. f_equal.
  unfold tabulate2 at 1. rewrite insert_tabulate.
  unfold tabulate2. apply map_ext_in. intros a _.
  destruct (Nat.eqb_spec a i) as [->|Hne]; simpl; [|done].
  apply insert_tabulate.
Qed.

Lemma zeros_tabulate2 r c : zeros r c = tabulate2 r c (λ _ _, 0%Q).
Proof.
  unfold zeros, tabulate2.
  assert (Hrep : ∀ {A} n (x : A), replicate n x = map (λ _, x) (seq 0 n)).
  { intros A n x. apply list_eq. intros k.
    destruct (decide (k < n)%nat).
    - rewrite lookup_replicate_2 by done.
      by rewrite list_lookup_fmap, lookup_seq_lt.
    - rewrite !(proj2 (lookup_ge_None _ _)); [done| |].
      + rewrite length_fmap, length_seq. lia.
      + rewrite length_replicate. lia. }
  by rewrite !Hrep.
Qed.

Lemma assign_top_left_tabulate2 n (z g : nat → nat → Q) :
  assign_top_left (tabulate2 (n + 1) (n + 1) z) (tabulate2 n n g)
  = tabulate2 (n + 1) (n + 1)
      (λ i j, if (i <? n)%nat && (j <? n)%nat then g i j else z i j).
Proof.
  unfold assign_top_left. apply list_eq. intros i.
  assert (Hlen : length (tabulate2 n n g) = n).
  { unfold tabulate2. by rewrite length_fmap, length_seq. }
  assert (Hrow : ∀ (h : nat → Q) k, length (map h (seq 0 k)) = k).
  { intros. by rewrite length_fmap, length_seq. }
  destruct (decide (i < n)%nat) as [Hi|Hi].
  - rewrite lookup_app_l.
    2:{ rewrite length_zip_with, Hlen. unfold tabulate2.
        rewrite length_fmap, length_seq. lia. }
    rewrite lookup_zip_with, !tabulate2_row by lia. simpl. f_equal.
    apply list_eq. intros j. rewrite Hrow.
    destruct (decide (j < n)%nat) as [Hj|Hj].
    + rewrite lookup_app_l by (rewrite Hrow; lia).
      rewrite !list_lookup_fmap, !lookup_seq_lt by lia. simpl.
      destruct (Nat.ltb_spec i n); [|lia]. destruct (Nat.ltb_spec j n); [|lia]. done.
    + rewrite lookup_app_r by (rewrite Hrow; lia).
      rewrite Hrow, lookup_drop, !list_lookup_fmap.
      replace (n + (j - n))%nat with j by lia.
      destruct (seq 0 (n + 1) !! j) as [j'|] eqn:Ej; simpl; [|done].
      apply lookup_seq in Ej as [-> _]. simpl.
      destruct (Nat.ltb_spec j n); [lia|]. by rewrite andb_false_r.
  - rewrite lookup_app_r.
    2:{ rewrite length_zip_with, Hlen. unfold tabulate2.
        rewrite length_fmap, length_seq. lia. }
    rewrite length_zip_with, Hlen.
    replace (length (tabulate2 (n + 1) (n + 1) z) `min` n)%nat with n.
    2:{ unfold tabulate2. rewrite length_fmap, length_seq. lia. }
    rewrite lookup_drop. replace (n + (i - n))%nat with i by lia.
    destruct (decide (i < n + 1)%nat) as [Hi'|Hi'].
    + rewrite !tabulate2_row by done. f_equal.
      apply map_ext_in. intros j _.
      destruct (Nat.ltb_spec i n); [lia|]. done.
    + by rewrite !tabulate2_row_None by lia.
Qed.

(** ** [instance2data] *)

Lemma cell_in_shape a i j :
  (i < (shape a).1)%nat → (j < (shape a).2)%nat → cell (rows a) i j = Some (item a i j).
Proof.
  intros Hi Hj. pose proof (rows_shape a) as Hwf.
  unfold rows_have_shape in Hwf. apply andb_true_iff in Hwf as [Hr Hc].
  apply Nat.eqb_eq in Hr. rewrite forallb_forall in Hc.
  unfold item, cell.
  destruct (rows a !! i) as [row|] eqn:Ei.
  2:{ apply lookup_ge_None in Ei. lia. }
  simpl. assert (Hlen : length row = (shape a).2).
  { apply Nat.eqb_eq, Hc. apply list_elem_of_In. by eapply list_elem_of_lookup_2. }
  destruct (row !! j) eqn:Ej; [done|].
  apply lookup_ge_None in Ej. lia.
Qed.

Lemma getitem2_Ok a i j :
  (i < (shape a).1)%nat → (j < (shape a).2)%nat → getitem2 a i j = Ok (item a i j).
Proof.
  intros Hi Hj. unfold getitem2.
  destruct (Nat.ltb_spec i (shape a).1); [|lia].
  destruct (Nat.ltb_spec j (shape a).2); [|lia]. simpl.
  by rewrite cell_in_shape.
Qed.

Lemma getitem2_is_Ok a i j :
  is_Ok (getitem2 a i j) → (i < (shape a).1)%nat ∧ (j < (shape a).2)%nat.
Proof.
  unfold getitem2.
  destruct (Nat.ltb_spec i (shape a).1); simpl; [|tauto].
  destruct (Nat.ltb_spec j (shape a).2); simpl; [|tauto]. done.
Qed.

Lemma mirror_depot_is_Ok a nl dm idx :
  is_Ok (mirror_depot a nl dm idx) →
  (idx < (shape a).1)%nat ∧ (idx < (shape a).2)%nat.
Proof.
  unfold mirror_depot. intros H.
  apply is_Ok_bind in H as (x & Hx & H).
  apply is_Ok_bind in H as (dm1 & _ & H).
  apply is_Ok_bind in H as (y & Hy & _).
  assert (is_Ok (getitem2 a 0 idx)) as Hx' by (by rewrite Hx).
  assert (is_Ok (getitem2 a idx 0)) as Hy' by (by rewrite Hy).
  apply getitem2_is_Ok in Hx', Hy'. tauto.
Qed.

Ltac bool_cases :=
  repeat match goal with
  | |- context [(?a =? ?b)%nat] => destruct (Nat.eqb_spec a b)
  | |- context [(?a <? ?b)%nat] => destruct (Nat.ltb_spec a b)
  | |- context [(?a <=? ?b)%nat] => destruct (Nat.leb_spec a b)
  end; simpl; try done; try lia.

Lemma mirror_depot_tabulate2 a n f idx :
  shape a = (n, n) → (idx < n)%nat →
  mirror_depot a (n + 1) (tabulate2 (n + 1) (n + 1) f) idx
  = Ok (tabulate2 (n + 1) (n + 1)
          (λ i j, if (i =? idx)%nat && (j =? n)%nat then item a idx 0
                  else if (i =? n)%nat && (j =? idx)%nat then item a 0 idx
                  else f i j)).
Proof.
  intros Hsh Hidx. unfold mirror_depot.
  rewrite !getitem2_Ok by (rewrite Hsh; simpl; lia). simpl.
  replace (n + 1 - 1)%nat with n by lia.
  rewrite setitem2_tabulate2 by lia. simpl.
  by rewrite setitem2_tabulate2 by lia.
Qed.

(** The loop of lines 37-41 run on [seq s t]: it writes the last row and the
    last column at the indices it visits and nothing else. *)
Lemma mirror_loop a n :
  shape a = (n, n) →
  ∀ t s f, (s + t ≤ n)%nat →
  ∃ g, for_each (mirror_depot a (n + 1)) (tabulate2 (n + 1) (n + 1) f) (seq s t)
       = Ok (tabulate2 (n + 1) (n + 1) g) ∧
       ∀ i j, g i j =
         if (i =? n)%nat && (s <=? j)%nat && (j <? s + t)%nat then item a 0 j
         else if (j =? n)%nat && (s <=? i)%nat && (i <? s + t)%nat then item a i 0
         else f i j.
Proof.
  intros Hsh. induction t as [|t IH]; intros s f Hst.
  - exists f. split; [done|]. intros i j. bool_cases.
  - cbn [seq for_each]. rewrite mirror_depot_tabulate2 by (done || lia).
    cbn [mbind result_bind].
    edestruct (IH (S s)) as (g & -> & Hg); [lia|].
    exists g. split; [done|]. intros i j. rewrite Hg. bool_cases; congruence.
Qed.

Lemma distance_matrix_of_square instance :
  let n := length (inst_demand instance) in
  shape (inst_edge_weight instance) = (n, n) →
  distance_matrix_of instance
  = Ok (tabulate2 (n + 1) (n + 1) (extended (inst_edge_weight instance) n)).
Proof.
  intros n Hsh. unfold distance_matrix_of. fold n.
  replace (n + 1 - 1)%nat with n by lia.
  unfold broadcast_to. rewrite Hsh. rewrite Nat.eqb_refl. simpl.
  fold (tabulate2 n n (λ i j, default 0%Q
          (cell (rows (inst_edge_weight instance))
                (if (n =? 1)%nat then 0%nat else i)
                (if (n =? 1)%nat then 0%nat else j)))).
  rewrite zeros_tabulate2.
  rewrite (tabulate2_ext n n _ (item (inst_edge_weight instance))).
  2:{ intros i j Hi Hj. unfold item.
      destruct (Nat.eqb_spec n 1); [|done].
      by replace i with 0%nat by lia; replace j with 0%nat by lia. }
  rewrite assign_top_left_tabulate2.
  destruct (mirror_loop _ n Hsh n 0%nat
              (λ i j, if (i <? n)%nat && (j <? n)%nat
                      then item (inst_edge_weight instance) i j else 0%Q))
    as (g & -> & Hg); [lia|].
  f_equal. apply tabulate2_ext. intros i j Hi Hj. rewrite Hg.
  unfold extended. bool_cases.
Qed.

(** Without demands nothing is read from the raw matrix after the
    (empty) slice assignment. *)
Lemma distance_matrix_of_empty instance :
  inst_demand instance = [] →
  is_Ok (distance_matrix_of instance) →
  distance_matrix_of instance = Ok [[0%Q]].
Proof.
  intros Hd. unfold distance_matrix_of. rewrite Hd. simpl.
  unfold broadcast_to. destruct (shape _) as [ar ac].
  destruct (_ && _); simpl; [done | tauto].
Qed.

(** When the transformation succeeds on a non-empty demand vector, the raw
    matrix was square of that side. *)
Lemma distance_matrix_of_shape instance :
  let n := length (inst_demand instance) in
  is_Ok (distance_matrix_of instance) → n ≠ 0%nat →
  shape (inst_edge_weight instance) = (n, n).
Proof.
  intros n Hok Hn. unfold distance_matrix_of in Hok. fold n in Hok.
  replace (n + 1 - 1)%nat with n in Hok by lia.
  apply is_Ok_bind in Hok as (block & Hb & Hok).
  unfold broadcast_to in Hb.
  destruct (shape (inst_edge_weight instance)) as [ar ac] eqn:Hsh.
  destruct (_ && _) eqn:Hbc; [|discriminate].
  destruct (for_each_is_Ok_elem _ _ _ (n - 1)%nat Hok) as (dm & Hstep).
  { apply elem_of_seq. lia. }
  apply mirror_depot_is_Ok in Hstep. rewrite Hsh in Hstep. simpl in Hstep.
  apply andb_true_iff in Hbc as [Hr Hc].
  apply orb_true_iff in Hr, Hc.
  rewrite !Nat.eqb_eq in Hr, Hc. f_equal; lia.
Qed.

Lemma instance2data_Ok np instance data :
  instance2data np instance = Ok data →
  ∃ dm, distance_matrix_of instance = Ok dm ∧
    data = {| num_vehicles := inst_vehicles instance;
              capacity := inst_capacity instance;
              num_locations := Z.of_nat (length (inst_demand instance) + 1);
              edge_weights := map (map (scale_floor np)) dm;
              service_time := map (times_10_service_time np) (inst_service_time instance);
              time_windows := map (map (times_10_time_window np)) (inst_time_window instance);
              demand := inst_demand instance |}.
Proof.
  unfold instance2data. intros H. inv_bind H. injection H as <-. eauto.
Qed.

Lemma scale_floor_0 np : scale_floor np 0 = 0.
Proof.
  unfold scale_floor. rewrite times_10_float64_0.
  rewrite floor_astype_int_in_range; [reflexivity|].
  split; [vm_compute; discriminate | reflexivity].
Qed.

Lemma transition_scaled np r c (f : nat → nat → Q) i j :
  (i < r)%nat → (j < c)%nat →
  transition (map (map (scale_floor np)) (tabulate2 r c f)) i j
  = Some (scale_floor np (f i j)).
Proof.
  intros. unfold transition.
  rewrite list_lookup_fmap, tabulate2_row by done. simpl.
  by rewrite !list_lookup_fmap, lookup_seq_lt.
Qed.

Lemma instance2data_cases np instance data :
  instance2data np instance = Ok data →
  let n := length (inst_demand instance) in
  num_locations data = Z.of_nat n + 1 ∧
  ((n = 0%nat ∧ edge_weights data = [[0]]) ∨
   (n ≠ 0%nat ∧ shape (inst_edge_weight instance) = (n, n) ∧
    edge_weights data
    = map (map (scale_floor np))
        (tabulate2 (n + 1) (n + 1) (extended (inst_edge_weight instance) n)))).
Proof.
  intros H n. apply instance2data_Ok in H as (dm & Hdm & ->). simpl. fold n.
  split; [lia|].
  assert (is_Ok (distance_matrix_of instance)) as Hok by (by rewrite Hdm).
  destruct (decide (n = 0%nat)) as [Hn|Hn].
  - left. split; [done|].
    rewrite distance_matrix_of_empty in Hdm; [|by apply length_zero_iff_nil|done].
    injection Hdm as <-. simpl. by rewrite scale_floor_0.
  - right. pose proof (distance_matrix_of_shape instance Hok Hn) as Hsh.
    rewrite distance_matrix_of_square in Hdm by done.
    by injection Hdm as <-.
Qed.

(** C5 (as amended).  For the data produced by [instance2data], row and
    column [last = num_locations - 1] of [edge_weights] repeat row and column
    [0] at every index [i < last]; at [i = last] itself they do so when the
    raw matrix has [floor(10 * edge_weight[0][0]) = 0]. *)
Theorem depot_mirroring np instance data (i : nat) :
  instance2data np instance = Ok data →
  let last := Z.to_nat (num_locations data - 1) in
  (i < last)%nat ∨
    (i = last ∧ scale_floor np (item (inst_edge_weight instance) 0 0) = 0) →
  ∃ w w',
    transition (edge_weights data) last i = Some w ∧
    transition (edge_weights data) 0 i = Some w ∧
    transition (edge_weights data) i last = Some w' ∧
    transition (edge_weights data) i 0 = Some w'.
Proof.
  intros H last Hi.
  destruct (instance2data_cases _ _ _ H) as (Hnl & [[Hn Hew]|(Hn & Hsh & Hew)]).
  - assert (last = 0%nat) as Hlast by (unfold last; lia).
    rewrite Hlast in *. destruct Hi as [Hi|[-> _]]; [lia|].
    rewrite Hew. by exists 0, 0.
  - set (n := length (inst_demand instance)) in *.
    assert (last = n) as Hlast by (unfold last; lia).
    rewrite Hlast in *. rewrite Hew.
    rewrite !transition_scaled by lia.
    unfold extended.
    destruct Hi as [Hi|[-> H00]].
    + eexists _, _. repeat split; f_equal; bool_cases.
    + exists 0, 0. bool_cases; rewrite ?H00, ?scale_floor_0; done.
Qed.

Lemma depot_mirroring_witness :
  ∃ w w',
    transition [[0; 10; 0]; [10; 0; 10]; [0; 10; 0]] 2 1 = Some w ∧
    transition [[0; 10; 0]; [10; 0; 10]; [0; 10; 0]] 0 1 = Some w ∧
    transition [[0; 10; 0]; [10; 0; 10]; [0; 10; 0]] 1 2 = Some w' ∧
    transition [[0; 10; 0]; [10; 0; 10]; [0; 10; 0]] 1 0 = Some w'.
Proof.
  refine (depot_mirroring exact_arithmetic
    {| inst_demand := [0; 1]%Q;
       inst_edge_weight := NdArray2 (2, 2)%nat [[0; 1]; [1; 0]]%Q eq_refl;
       inst_service_time := [0; 1]%Q;
       inst_time_window := [[0; 100]; [0; 100]]%Q;
       inst_vehicles := 1; inst_capacity := 10 |}
    {| num_vehicles := 1; capacity := 10; num_locations := 3;
       edge_weights := [[0; 10; 0]; [10; 0; 10]; [0; 10; 0]];
       service_time := [0; 10]%Q;
       time_windows := [[0; 1000]; [0; 1000]]%Q;
       demand := [0; 1]%Q |} 1%nat eq_refl _).
  left. vm_compute. lia.
Defined.

(** C5 as stated fails at [i = last]: the corner [edge_weights[last][last]]
    is never written and stays 0, while [edge_weights[0][last]] copies
    [floor(10 * edge_weight[0][0])]. *)
Lemma depot_mirroring_fails_at_last :
  ¬ (∀ instance data (i : nat),
       instance2data exact_arithmetic instance = Ok data →
       let last := Z.to_nat (num_locations data - 1) in
       (i ≤ last)%nat →
       transition (edge_weights data) last i = transition (edge_weights data) 0 i ∧
       transition (edge_weights data) i last = transition (edge_weights data) i 0).
Proof.
  intros H.
  destruct (H nonzero_diagonal_instance _ 1%nat eq_refl) as [H1 _].
  - vm_compute. lia.
  - vm_compute in H1. discriminate.
Qed.




Lemma broadcast_to_is_Ok a r c :
  is_Ok (broadcast_to a r c)
  ↔ ((shape a).1 = r ∨ (shape a).1 = 1%nat) ∧ ((shape a).2 = c ∨ (shape a).2 = 1%nat).
Proof.
  unfold broadcast_to. destruct (shape a) as [ar ac]. simpl.
  destruct (Nat.eqb_spec ar r), (Nat.eqb_spec ar 1), (Nat.eqb_spec ac c),
    (Nat.eqb_spec ac 1); simpl; intuition lia.
Qed.

(** Without demands the slice assignment is all that can fail, and it
    passes only a raw matrix of at most one row and one column. *)
Lemma distance_matrix_of_empty_shape instance :
  inst_demand instance = [] →
  is_Ok (distance_matrix_of instance) →
  ((shape (inst_edge_weight instance)).1 ≤ 1)%nat ∧
  ((shape (inst_edge_weight instance)).2 ≤ 1)%nat.
Proof.
  intros Hd Hok. unfold distance_matrix_of in Hok. rewrite Hd in Hok.
  apply is_Ok_bind in Hok as (block & Hb & _). simpl in Hb.
  assert (is_Ok (broadcast_to (inst_edge_weight instance) 0 0))
    as Hb' by (by rewrite Hb).
  apply broadcast_to_is_Ok in Hb'. lia.
Qed.

Lemma for_each_Raise {S A} (P : exn → Prop) (body : S → A → result S) s xs e :
  (∀ s x e, body s x = Raise e → P e) → for_each body s xs = Raise e → P e.
Proof.
  intros Hbody. revert s. induction xs as [|x xs IH]; intros s H; simpl in H.
  - discriminate.
  - destruct (body s x) eqn:E; simpl in H; [eauto|].
    injection H as <-. eauto.
Qed.

Lemma distance_matrix_of_Raise instance e :
  distance_matrix_of instance = Raise e → e = ValueError ∨ e = IndexError.
Proof.
  unfold distance_matrix_of. intros H.
  destruct (broadcast_to _ _ _) eqn:Hb; simpl in H.
  - right. revert H. apply (for_each_Raise (λ e, e = IndexError)).
    clear. intros dm idx e.
    unfold mirror_depot, getitem2, setitem2.
    repeat (case_match; simpl; try discriminate); by intros [= <-].
  - left. injection H as <-. unfold broadcast_to in Hb.
    destruct (shape _). case_match; [discriminate|]. by injection Hb.
Qed.

(** C7 (as amended).  On a raw instance whose [edge_weight] matrix is not
    square, or whose side is not the length of the demand vector,
    [instance2data] raises ([ValueError] from the slice assignment or
    [IndexError] from the mirroring loop) and returns no [ProblemData];
    the one exception is an empty demand vector next to a raw matrix of at
    most one row and at most one column. *)
Theorem malformed_matrix_rejected np instance :
  ¬ (inst_demand instance = [] ∧
     ((shape (inst_edge_weight instance)).1 ≤ 1)%nat ∧
     ((shape (inst_edge_weight instance)).2 ≤ 1)%nat) →
  (shape (inst_edge_weight instance)).1 ≠ (shape (inst_edge_weight instance)).2 ∨
  (shape (inst_edge_weight instance)).1 ≠ length (inst_demand instance) →
  instance2data np instance = Raise ValueError ∨
  instance2data np instance = Raise IndexError.
Proof.
  intros Hne Hbad.
  assert (¬ is_Ok (distance_matrix_of instance)) as Hfail.
  { intros Hok. destruct (inst_demand instance) as [|d ds] eqn:Hd.
    - apply Hne. split; [done|]. by apply distance_matrix_of_empty_shape.
    - apply distance_matrix_of_shape in Hok; [|by rewrite Hd].
      rewrite Hok, Hd in Hbad. simpl in Hbad. lia. }
  apply not_Ok_Raise in Hfail as (e & He).
  unfold instance2data. rewrite He. simpl.
  destruct (distance_matrix_of_Raise _ _ He) as [-> | ->]; eauto.
Qed.

Lemma malformed_matrix_rejected_witness :
  (instance2data exact_arithmetic
     {| inst_demand := [0; 1]%Q;
        inst_edge_weight := NdArray2 (1, 2)%nat [[0; 1]]%Q eq_refl;
        inst_service_time := [0; 1]%Q;
        inst_time_window := [[0; 100]; [0; 100]]%Q;
        inst_vehicles := 1; inst_capacity := 10 |} = Raise ValueError ∨
   instance2data exact_arithmetic
     {| inst_demand := [0; 1]%Q;
        inst_edge_weight := NdArray2 (1, 2)%nat [[0; 1]]%Q eq_refl;
        inst_service_time := [0; 1]%Q;
        inst_time_window := [[0; 100]; [0; 100]]%Q;
        inst_vehicles := 1; inst_capacity := 10 |} = Raise IndexError) ∧
  (instance2data exact_arithmetic
     {| inst_demand := [];
        inst_edge_weight := NdArray2 (2, 2)%nat [[0; 1]; [1; 0]]%Q eq_refl;
        inst_service_time := [];
        inst_time_window := [];
        inst_vehicles := 1; inst_capacity := 10 |} = Raise ValueError ∨
   instance2data exact_arithmetic
     {| inst_demand := [];
        inst_edge_weight := NdArray2 (2, 2)%nat [[0; 1]; [1; 0]]%Q eq_refl;
        inst_service_time := [];
        inst_time_window := [];
        inst_vehicles := 1; inst_capacity := 10 |} = Raise IndexError).
Proof.
  split.
  - apply malformed_matrix_rejected; simpl; [intros [? _]; discriminate | left; lia].
  - apply malformed_matrix_rejected; simpl; [lia | right; lia].
Defined.

(** C7 as stated fails on an empty demand vector: the slice
    [distance_matrix[:-1, :-1]] is then empty, a 1 x 1 raw matrix broadcasts
    into it, the loop body never runs, and a [ProblemData] is returned. *)
Lemma malformed_matrix_accepted_without_demand :
  ¬ (∀ instance,
       (shape (inst_edge_weight instance)).1 ≠ (shape (inst_edge_weight instance)).2 ∨
       (shape (inst_edge_weight instance)).1 ≠ length (inst_demand instance) →
       ∃ e, instance2data exact_arithmetic instance = Raise e).
Proof.
  intros H. destruct (H empty_demand_instance) as (e & He).
  - right. simpl. lia.
  - vm_compute in He. discriminate.
Qed.

(** ** The variables the builder creates *)

Lemma elem_of_product {A B} (xs : list A) (ys : list B) x y :
  (x, y) ∈ product xs ys ↔ x ∈ xs ∧ y ∈ ys.
Proof.
  unfold product. rewrite list_elem_of_bind. split.
  - intros (x' & Hin & Hx). apply list_elem_of_bind in Hin as (y' & Hin & Hy).
    apply list_elem_of_singleton in Hin. by simplify_eq.
  - intros [Hx Hy]. exists x. split; [|done].
    apply list_elem_of_bind. exists y. split; [|done]. by apply list_elem_of_singleton.
Qed.

Lemma foldl_insert_lookup `{Countable K} {V} (g : K → V)
    (step : gmap K V → K → gmap K V) (m0 : gmap K V) ps key :
  (∀ m p, step m p = <[p := g p]> m) →
  foldl step m0 ps !! key
  = if decide (key ∈ ps) then Some (g key) else m0 !! key.
Proof.
  intros Hstep. revert m0. induction ps as [|p ps IH]; intros m0; simpl.
  - done.
  - rewrite IH, Hstep. destruct (decide (key ∈ ps)) as [Hin|Hin].
    + by rewrite decide_True by (by right).
    + destruct (decide (key = p)) as [->|Hne].
      * rewrite decide_True by left. by rewrite lookup_insert_eq.
      * rewrite lookup_insert_ne by done.
        rewrite decide_False; [done|]. by intros [?|?]%elem_of_cons.
Qed.

Lemma vvisits_lookup data k l :
  create_vehicle_visit_variables data !! (k, l)
  = if decide (k ∈ vehicles data ∧ l ∈ locations data)
    then Some (vehicle_visit k l) else None.
Proof.
  unfold create_vehicle_visit_variables.
  rewrite (foldl_insert_lookup (λ p, vehicle_visit p.1 p.2)) by (by intros m [a b]).
  rewrite lookup_empty. simpl.
  destruct (decide ((k, l) ∈ _)) as [Hin|Hin];
    [rewrite decide_True | rewrite decide_False]; try done;
    by rewrite <- elem_of_product.
Qed.

Lemma dict_get_vvisits data k l v :
  dict_get (create_vehicle_visit_variables data) (k, l) = Ok v →
  v = vehicle_visit k l ∧ k ∈ vehicles data ∧ l ∈ locations data.
Proof.
  unfold dict_get. rewrite vvisits_lookup.
  destruct (decide _); [|discriminate]. intros [= <-]. tauto.
Qed.

Lemma dict_get_vvisits_Ok data k l :
  k ∈ vehicles data → l ∈ locations data →
  dict_get (create_vehicle_visit_variables data) (k, l) = Ok (vehicle_visit k l).
Proof.
  intros. unfold dict_get. rewrite vvisits_lookup. by rewrite decide_True.
Qed.

Lemma for_each_insert `{Countable K} {V} (f : K → result V) (m0 m : gmap K V) xs :
  for_each (λ m x, v ← f x; Ok (<[x := v]> m)) m0 xs = Ok m →
  ∀ x, (x ∈ xs → ∃ v, f x = Ok v ∧ m !! x = Some v) ∧
       (x ∉ xs → m !! x = m0 !! x).
Proof.
  revert m0. induction xs as [|y xs IH]; intros m0 Hm x; simpl in Hm.
  - injection Hm as <-. split; [by intros ?%elem_of_nil | done].
  - apply bind_Ok in Hm as (m1 & Hy & Hm).
    apply bind_Ok in Hy as (v & Hv & [= <-]).
    destruct (IH _ Hm x) as [IHin IHout].
    destruct (decide (x ∈ xs)) as [Hin|Hin].
    + split; [by auto|]. intros Hx. exfalso. apply Hx. by right.
    + split.
      * intros [->|?]%elem_of_cons; [|done].
        exists v. split; [done|]. by rewrite IHout, lookup_insert_eq.
      * intros Hx. rewrite IHout by done.
        apply lookup_insert_ne. intros ->. apply Hx. left.
Qed.

Lemma for_each_add {A} (f : A → result (list CpoStatement)) (model : CpoModel) xs :
  for_each (λ model x, sts ← f x; Ok (model ++ sts)) model xs
  = stss ← comprehension f xs; Ok (model ++ concat stss).
Proof.
  revert model. induction xs as [|x xs IH]; intros model; simpl.
  - by rewrite app_nil_r.
  - destruct (f x) as [sts|e]; simpl; [|done].
    rewrite IH. destruct (comprehension f xs); simpl; [|done].
    by rewrite app_assoc.
Qed.

(** *** Each building step, on success *)

Lemma create_visit_variables_Ok data visits :
  create_visit_variables data = Ok visits →
  ∀ c, c ∈ clients data → ∃ v, visit_of data c = Ok v ∧ visits !! c = Some v.
Proof.
  unfold create_visit_variables. intros H c Hc.
  rewrite (for_each_ext _ (λ m x, v ← visit_of data x; Ok (<[x := v]> m))) in H.
  - by apply (for_each_insert _ _ _ _ H c).
  - intros m x _. unfold visit_of.
    destruct (getitem (service_time data) x); simpl; [|done].
    destruct (getitem (time_windows data) x); simpl; [|done].
    destruct (unpack2 _) as [[? ?]|]; simpl; done.
Qed.

Lemma create_route_variables_Ok data routes :
  create_route_variables data (create_vehicle_visit_variables data) = Ok routes →
  ∀ k, k ∈ vehicles data → routes !! k = Some (route data k).
Proof.
  unfold create_route_variables. intros H k Hk.
  set (f := λ k, intervals ← comprehension
                   (λ loc, dict_get (create_vehicle_visit_variables data) (k, loc))
                   (locations data);
                 Ok (sequence_var intervals (R_ k))).
  rewrite (for_each_ext _ (λ m x, v ← f x; Ok (<[x := v]> m))) in H.
  2:{ intros m x _. unfold f. by destruct (comprehension _ _). }
  destruct (for_each_insert f _ _ _ H k) as [Hin _].
  destruct (Hin Hk) as (v & Hv & ->). f_equal.
  apply bind_Ok in Hv as (ivs & Hivs & [= <-]).
  unfold route. f_equal.
  eapply comprehension_Ok_map; [|done].
  intros l v _ Hl. by apply dict_get_vvisits in Hl as [-> _].
Qed.

Lemma comprehension_Forall2 {A B} (f : A → result B) xs ys :
  comprehension f xs = Ok ys ↔ Forall2 (λ x y, f x = Ok y) xs ys.
Proof.
  revert ys. induction xs as [|x xs IH]; intros ys; simpl.
  - split; [intros [= <-]; constructor | by intros ->%Forall2_nil_inv_l].
  - split.
    + intros H. inv_bind H. injection H as <-. constructor; [done|]. by apply IH.
    + intros (y & ys' & Hy & Hys & ->)%Forall2_cons_inv_l.
      rewrite Hy. simpl. apply IH in Hys. by rewrite Hys.
Qed.

Lemma comprehension_Ok_all {A B} (f : A → result B) (g : A → B) xs :
  (∀ x, x ∈ xs → f x = Ok (g x)) → comprehension f xs = Ok (g <$> xs).
Proof.
  intros H. apply comprehension_Forall2. apply Forall2_fmap_r, Forall_Forall2_diag.
  by apply Forall_forall.
Qed.

Lemma concat_singletons {A B} (g : A → B) xs :
  concat ((λ x, [g x]) <$> xs) = g <$> xs.
Proof. induction xs; simpl; by f_equal. Qed.

Lemma concat_fmap_bind {A B} (g : A → list B) xs :
  concat (g <$> xs) = xs ≫= g.
Proof. induction xs; simpl; by f_equal. Qed.

Lemma minimize_total_travel_time_Ok model data model' :
  minimize_total_travel_time model data (create_vehicle_visit_variables data) = Ok model' →
  ∃ sts, comprehension (getitem (service_time data)) (clients data) = Ok sts ∧
         (vehicles data ≠ [] → 0 < num_locations data) ∧
         model' = model ++ [Minimize (travel_time data sts)].
Proof.
  unfold minimize_total_travel_time. intros H.
  apply bind_Ok in H as (ct & Hct & H).
  apply bind_Ok in H as (sts & Hsts & [= <-]).
  exists sts. split; [done|]. split.
  - intros Hne. destruct (vehicles data) as [|k ks] eqn:Hv; [done|].
    simpl in Hct. apply bind_Ok in Hct as (e & He & _).
    apply bind_Ok in He as (v & Hv' & _).
    apply dict_get_vvisits in Hv' as (_ & _ & Hl).
    apply elem_of_range in Hl. lia.
  - unfold add, travel_time.
    assert (ct = (λ k, EndOf (vehicle_visit k (num_locations data - 1)))
                   <$> vehicles data) as ->; [|done].
    eapply comprehension_Ok_map; [|exact Hct].
    intros k e _ Hk. apply bind_Ok in Hk as (v & Hv & [= <-]).
    by apply dict_get_vvisits in Hv as [-> _].
Qed.

Lemma no_overlap_between_visits_Ok model data routes :
  (∀ k, k ∈ vehicles data → routes !! k = Some (route data k)) →
  no_overlap_between_visits model data routes
  = Ok (model ++ ((λ k, NoOverlap (route data k) (edge_weights data)) <$> vehicles data)).
Proof.
  intros Hr. unfold no_overlap_between_visits.
  rewrite (for_each_ext _
    (λ model k, sts ← Ok [NoOverlap (route data k) (edge_weights data)];
                Ok (model ++ sts))).
  2:{ intros m k Hk. unfold dict_get. rewrite Hr by done. reflexivity. }
  rewrite for_each_add.
  rewrite (comprehension_Ok_all _
    (λ k, [NoOverlap (route data k) (edge_weights data)]))
    by (intros; reflexivity).
  simpl. by rewrite concat_singletons.
Qed.

Lemma routes_start_and_end_at_depot_Ok model data routes :
  (∀ k, k ∈ vehicles data → routes !! k = Some (route data k)) →
  (vehicles data ≠ [] → 0 < num_locations data) →
  routes_start_and_end_at_depot model data (create_vehicle_visit_variables data) routes
  = Ok (model ++ (vehicles data ≫= depot_statements data)).
Proof.
  intros Hr Hnl. unfold routes_start_and_end_at_depot.
  rewrite (for_each_ext _ (λ model k, sts ← Ok (depot_statements data k);
                                      Ok (model ++ sts))).
  2:{ intros m k Hk.
      assert (0 < num_locations data) as Hpos.
      { apply Hnl. intros Hnil. rewrite Hnil in Hk. by apply elem_of_nil in Hk. }
      rewrite !dict_get_vvisits_Ok by (done || apply elem_of_range; lia).
      unfold dict_get. rewrite Hr by done. simpl.
      unfold add, depot_statements. by rewrite <- !app_assoc. }
  rewrite for_each_add.
  rewrite (comprehension_Ok_all _ (depot_statements data))
    by (intros; reflexivity).
  simpl. by rewrite concat_fmap_bind.
Qed.

Lemma clients_are_locations data c : c ∈ clients data → c ∈ locations data.
Proof. unfold clients, locations. rewrite !elem_of_range. lia. Qed.

Lemma assign_each_client_to_one_vehicle_Ok model data visits model' :
  assign_each_client_to_one_vehicle model data visits
    (create_vehicle_visit_variables data) = Ok model' →
  ∃ alts,
    Forall2 (λ c st, ∃ v, visits !! c = Some v ∧
               st = Alternative v ((λ k, vehicle_visit k c) <$> vehicles data))
            (clients data) alts ∧
    model' = model ++ alts.
Proof.
  unfold assign_each_client_to_one_vehicle. intros H.
  rewrite (for_each_ext _
    (λ model c, sts ← (v ← dict_get visits c;
                       Ok [Alternative v ((λ k, vehicle_visit k c) <$> vehicles data)]);
                Ok (model ++ sts))) in H.
  2:{ intros m c Hc.
      rewrite (comprehension_Ok_all _ (λ k, vehicle_visit k c)).
      - simpl. by destruct (dict_get visits c).
      - intros k Hk. apply dict_get_vvisits_Ok; [done|].
        by apply clients_are_locations. }
  rewrite for_each_add in H. apply bind_Ok in H as (stss & Hstss & [= <-]).
  exists (concat stss). split; [|done].
  apply comprehension_Forall2 in Hstss.
  induction Hstss as [|c sts cs stss Hc _ IH]; simpl; [constructor|].
  apply bind_Ok in Hc as (v & Hv & [= <-]). simpl. constructor; [|done].
  exists v. split; [|done]. unfold dict_get in Hv. by destruct (visits !! c); simplify_eq.
Qed.

(** *** The whole model, on success *)

Lemma vehicle_routing_problem_time_windows_Ok data model :
  vehicle_routing_problem_time_windows data = Ok model →
  ∃ sts alts,
    comprehension (getitem (service_time data)) (clients data) = Ok sts ∧
    Forall2 (λ c st, ∃ v, visit_of data c = Ok v ∧
               st = Alternative v ((λ k, vehicle_visit k c) <$> vehicles data))
            (clients data) alts ∧
    (vehicles data ≠ [] → 0 < num_locations data) ∧
    model = Minimize (travel_time data sts)
            :: ((λ k, NoOverlap (route data k) (edge_weights data)) <$> vehicles data)
            ++ (vehicles data ≫= depot_statements data)
            ++ alts.
Proof.
  unfold vehicle_routing_problem_time_windows. intros H.
  apply bind_Ok in H as (visits & Hvisits & H).
  apply bind_Ok in H as (routes & Hroutes & H).
  apply bind_Ok in H as (m1 & Hm1 & H).
  apply bind_Ok in H as (m2 & Hm2 & H).
  apply bind_Ok in H as (m3 & Hm3 & H).
  apply bind_Ok in H as (m4 & Hm4 & [= <-]).
  pose proof (create_visit_variables_Ok _ _ Hvisits) as Hv.
  pose proof (create_route_variables_Ok _ _ Hroutes) as Hr.
  apply minimize_total_travel_time_Ok in Hm1 as (sts & Hsts & Hnl & ->).
  rewrite no_overlap_between_visits_Ok in Hm2 by done. injection Hm2 as <-.
  rewrite routes_start_and_end_at_depot_Ok in Hm3 by done. injection Hm3 as <-.
  apply assign_each_client_to_one_vehicle_Ok in Hm4 as (alts & Halts & ->).
  exists sts, alts. split; [done|]. split; [|split; [done|]].
  - clear -Hv Halts. revert Hv Halts. generalize (clients data).
    intros cs0 Hv Halts.
    induction Halts as [|c st cs alts (v & Hc & ->) _ IH]; constructor.
    + destruct (Hv c) as (v' & Hv' & Hlook); [left|].
      exists v. split; [congruence | done].
    + apply IH. intros. apply Hv. by right.
  - simpl. by rewrite <- !app_assoc.
Qed.

(** *** Where each statement sits in a built model *)

Lemma unpack2_Ok {A} (row : list A) x y : unpack2 row = Ok (x, y) → row = [x; y].
Proof.
  destruct row as [|a [|b [|c row]]]; simpl; try discriminate. by intros [= -> ->].
Qed.

Lemma visit_of_Ok data c v :
  visit_of data c = Ok v →
  ∃ st tw_early tw_late,
    getitem (service_time data) c = Ok st ∧
    getitem (time_windows data) c = Ok [tw_early; tw_late] ∧
    v = visit c st tw_early tw_late.
Proof.
  unfold visit_of. intros H.
  apply bind_Ok in H as (st & Hst & H).
  apply bind_Ok in H as (row & Hrow & H).
  apply bind_Ok in H as ([e l] & Hun & [= <-]).
  apply unpack2_Ok in Hun as ->. eauto 6.
Qed.

Lemma model_alternative data model c :
  vehicle_routing_problem_time_windows data = Ok model → c ∈ clients data →
  ∃ v, visit_of data c = Ok v ∧
       Alternative v ((λ k, vehicle_visit k c) <$> vehicles data) ∈ model.
Proof.
  intros H Hc.
  apply vehicle_routing_problem_time_windows_Ok in H
    as (sts & alts & _ & Halts & _ & ->).
  apply list_elem_of_lookup in Hc as (i & Hi).
  destruct (Forall2_lookup_l _ _ _ _ _ Halts Hi) as (st & Hst & v & Hv & ->).
  exists v. split; [done|].
  apply elem_of_cons. right. rewrite !elem_of_app. do 2 right.
  by eapply list_elem_of_lookup_2.
Qed.

Lemma model_no_overlap data model k :
  vehicle_routing_problem_time_windows data = Ok model → k ∈ vehicles data →
  NoOverlap (route data k) (edge_weights data) ∈ model.
Proof.
  intros H Hk.
  apply vehicle_routing_problem_time_windows_Ok in H as (sts & alts & _ & _ & _ & ->).
  apply elem_of_cons. right. rewrite !elem_of_app. left.
  apply list_elem_of_fmap. eauto.
Qed.

Lemma model_depot data model k st :
  vehicle_routing_problem_time_windows data = Ok model → k ∈ vehicles data →
  st ∈ depot_statements data k → st ∈ model.
Proof.
  intros H Hk Hst.
  apply vehicle_routing_problem_time_windows_Ok in H as (sts & alts & _ & _ & _ & ->).
  apply elem_of_cons. right. rewrite !elem_of_app. right. left.
  apply list_elem_of_bind. eauto.
Qed.

Lemma feasible_elem model sol st : feasible model sol → st ∈ model → sat sol st.
Proof. unfold feasible. rewrite Forall_forall. auto. Qed.

(** *** Sequences *)

Lemma route_names data k x :
  x ∈ iv_name <$> sv_intervals (route data k) ↔ ∃ l, l ∈ locations data ∧ x = T__ k l.
Proof.
  simpl. rewrite <- list_fmap_compose. rewrite list_elem_of_fmap. simpl.
  split; intros (l & H1 & H2); eauto.
Qed.

Lemma type_of_route data k l :
  l ∈ locations data → type_of (route data k) (T__ k l) = Some (Z.to_nat l).
Proof.
  intros Hl. apply elem_of_range in Hl. unfold type_of.
  assert (list_find (λ v, iv_name v = T__ k l) (sv_intervals (route data k))
          = Some (Z.to_nat l, vehicle_visit k l)) as ->; [|done].
  apply list_find_Some. simpl. split; [|split; [done|]].
  - rewrite list_lookup_fmap. unfold locations.
    rewrite lookup_range by lia. simpl. do 2 f_equal. lia.
  - intros j y Hj Hlt Hy. rewrite list_lookup_fmap in Hj.
    unfold locations in Hj. rewrite lookup_range in Hj by lia.
    simpl in Hj. injection Hj as <-. simpl in Hy. injection Hy as Hy. lia.
Qed.

Lemma pairwise_before {A} (R : A → A → Prop) pre a mid b post :
  pairwise R (pre ++ a :: mid ++ b :: post) → R a b.
Proof.
  induction pre as [|p pre IH]; simpl.
  - intros [H _]. rewrite Forall_forall in H. apply H.
    rewrite elem_of_app. right. left.
  - intros [_ H]. auto.
Qed.

Lemma pairwise_either {A} (R : A → A → Prop) l a b :
  pairwise R l → a ∈ l → b ∈ l → a ≠ b → R a b ∨ R b a.
Proof.
  induction l as [|x l IH]; simpl.
  { intros _ Ha. by apply elem_of_nil in Ha. }
  intros [Hx Hl] Ha Hb Hne.
  rewrite Forall_forall in Hx.
  apply elem_of_cons in Ha as [->|Ha]; apply elem_of_cons in Hb as [->|Hb]; auto.
  done.
Qed.

(** *** What feasibility gives, statement by statement *)

Lemma feasible_route data model sol k :
  vehicle_routing_problem_time_windows data = Ok model → k ∈ vehicles data →
  feasible model sol →
  sequence_ok sol (route data k) ∧
  pairwise (precedes sol (route data k) (edge_weights data)) (order sol (R_ k)).
Proof.
  intros H Hk Hf.
  apply (feasible_elem _ _ _ Hf (model_no_overlap _ _ _ H Hk)).
Qed.

Lemma presence_forced sol v :
  (eval sol (PresenceOf v) == eval sol (Const 1))%Q → present sol (iv_name v).
Proof.
  simpl. unfold present. destruct (itv sol (iv_name v)); [eauto | discriminate].
Qed.

Lemma feasible_depot data model sol k :
  vehicle_routing_problem_time_windows data = Ok model → k ∈ vehicles data →
  feasible model sol →
  present sol (T__ k 0) ∧ present sol (T__ k (num_locations data - 1)) ∧
  head (order sol (R_ k)) = Some (T__ k 0) ∧
  last (order sol (R_ k)) = Some (T__ k (num_locations data - 1)).
Proof.
  intros H Hk Hf.
  assert (∀ st, st ∈ depot_statements data k → sat sol st) as Hsat.
  { intros st Hst. eapply feasible_elem; [done|]. by eapply model_depot. }
  destruct (Hsat (Equal (PresenceOf (vehicle_visit k 0)) (Const 1))) as [_ Hp0].
  { unfold depot_statements. rewrite !elem_of_cons. auto 10. }
  destruct (Hsat (Equal (PresenceOf (vehicle_visit k (num_locations data - 1)))
                        (Const 1))) as [_ Hp1].
  { unfold depot_statements. rewrite !elem_of_cons. auto 10. }
  destruct (Hsat (First (route data k) (vehicle_visit k 0))) as (_ & _ & Hfirst).
  { unfold depot_statements. rewrite !elem_of_cons. auto 10. }
  destruct (Hsat (Last (route data k) (vehicle_visit k (num_locations data - 1))))
    as (_ & _ & Hlast).
  { unfold depot_statements. rewrite !elem_of_cons. auto 10. }
  apply presence_forced in Hp0, Hp1. auto.
Qed.

Lemma filter_length_one {A} (P : A → Prop) `{∀ x, Decision (P x)} (l : list A) :
  length (filter P l) = 1%nat →
  ∃ x, x ∈ l ∧ P x ∧ ∀ y, y ∈ l → P y → y = x.
Proof.
  intros Hlen. destruct (filter P l) as [|x [|? ?]] eqn:Hf; try discriminate.
  assert (∀ y, P y ∧ y ∈ l ↔ y = x) as Hx.
  { intros y. rewrite <- list_elem_of_filter, Hf. apply list_elem_of_singleton. }
  exists x. destruct (proj2 (Hx x) eq_refl). repeat split; [done..|].
  intros y Hy HP. by apply Hx.
Qed.

Lemma feasible_alternative data model sol c :
  vehicle_routing_problem_time_windows data = Ok model → c ∈ clients data →
  feasible model sol →
  ∃ st tw_early tw_late s e,
    getitem (service_time data) c = Ok st ∧
    getitem (time_windows data) c = Ok [tw_early; tw_late] ∧
    Alternative (visit c st tw_early tw_late)
                ((λ k, vehicle_visit k c) <$> vehicles data) ∈ model ∧
    interval_ok sol (visit c st tw_early tw_late) ∧
    itv sol (T_ c) = Some (s, e) ∧
    length (filter (λ a, present sol (iv_name a))
                   ((λ k, vehicle_visit k c) <$> vehicles data)) = 1%nat ∧
    ∀ k, k ∈ vehicles data → present sol (T__ k c) → itv sol (T__ k c) = Some (s, e).
Proof.
  intros H Hc Hf.
  destruct (model_alternative _ _ _ H Hc) as (v & Hv & Hin).
  apply visit_of_Ok in Hv as (st & tw_early & tw_late & Hst & Htw & ->).
  destruct (feasible_elem _ _ _ Hf Hin) as (Hok & _ & Halt).
  pose proof Hok as Hok'. unfold interval_ok in Hok'. simpl in *.
  destruct (itv sol (T_ c)) as [[s e]|]; [|discriminate].
  destruct Halt as [Hone Hsame].
  exists st, tw_early, tw_late, s, e. repeat split; try done.
  intros k Hk Hp. rewrite Forall_forall in Hsame.
  apply (Hsame (vehicle_visit k c)); [|done].
  apply list_elem_of_fmap. eauto.
Qed.

(** C1.  For every client, the built model holds the alternative constraint
    between the client's (mandatory) visit interval and its optional
    per-vehicle intervals, one per vehicle; in every feasible assignment
    exactly one vehicle's interval for that client is present, and it has
    the start and end of the visit interval. *)
Theorem each_client_on_one_vehicle data model client :
  vehicle_routing_problem_time_windows data = Ok model →
  client ∈ clients data →
  ∃ v, visit_of data client = Ok v ∧
       iv_name v = T_ client ∧ iv_optional v = false ∧
       (∀ k, iv_optional (vehicle_visit k client) = true) ∧
       Alternative v ((λ k, vehicle_visit k client) <$> vehicles data) ∈ model ∧
       ∀ sol, feasible model sol →
         ∃ k s e,
           k ∈ vehicles data ∧
           itv sol (T_ client) = Some (s, e) ∧
           itv sol (T__ k client) = Some (s, e) ∧
           ∀ k', k' ∈ vehicles data → present sol (T__ k' client) → k' = k.
Proof.
  intros H Hc.
  destruct (model_alternative _ _ _ H Hc) as (v & Hv & Hin).
  exists v. split; [done|].
  pose proof Hv as Hv'.
  apply visit_of_Ok in Hv' as (st & tw_early & tw_late & Hst & Htw & ->).
  repeat split; [done|].
  intros sol Hf.
  destruct (feasible_alternative _ _ _ _ H Hc Hf)
    as (st' & e' & l' & s & e & _ & _ & _ & _ & Hs & Hone & Hsame).
  apply filter_length_one in Hone as (a & Ha & Hpa & Huniq).
  apply list_elem_of_fmap in Ha as (k & -> & Hk).
  exists k, s, e. repeat split; [done..|by apply Hsame|].
  intros k' Hk' Hp'.
  assert (vehicle_visit k' client = vehicle_visit k client) as Heq.
  { apply Huniq; [|done]. apply list_elem_of_fmap. eauto. }
  by injection Heq.
Qed.

Lemma within_default z : within DEFAULT_INTERVAL z → 0 ≤ z.
Proof. intros [H _]. simpl in H. by rewrite Zle_Qle. Qed.

Lemma vehicle_visit_times sol k l s e :
  interval_ok sol (vehicle_visit k l) → itv sol (T__ k l) = Some (s, e) →
  0 ≤ s ∧ s ≤ e.
Proof.
  unfold interval_ok. simpl. intros H Hitv. rewrite Hitv in H.
  destruct H as (Hs & _ & Hlen & _).
  apply within_default in Hs, Hlen. lia.
Qed.

Lemma route_interval_ok data sol k l :
  sequence_ok sol (route data k) → l ∈ locations data →
  interval_ok sol (vehicle_visit k l).
Proof.
  intros (Hok & _) Hl. rewrite Forall_forall in Hok. apply Hok.
  simpl. apply list_elem_of_fmap. eauto.
Qed.

Lemma route_order data sol k x :
  sequence_ok sol (route data k) →
  x ∈ order sol (R_ k) ↔ ∃ l, l ∈ locations data ∧ x = T__ k l ∧ present sol x.
Proof.
  intros (_ & _ & Hin & Hall).
  rewrite Forall_forall in Hin. rewrite Forall_forall in Hall. split.
  - intros Hx. destruct (Hin x Hx) as [Hn Hp].
    apply route_names in Hn as (l & Hl & ->). eauto.
  - intros (l & Hl & -> & Hp). apply (Hall (vehicle_visit k l)); [|done].
    simpl. apply list_elem_of_fmap. eauto.
Qed.

(** C2.  For every vehicle [k], the built model holds the two presence
    constraints on [k]'s start-depot (location 0) and end-depot (location
    [num_locations - 1]) intervals and the [first] and [last] constraints
    on [k]'s route; in every feasible assignment both depot intervals are
    present, and the route, which lists exactly [k]'s present intervals,
    starts with the start depot and ends with the end depot. *)
Theorem routes_bracketed_by_depot data model k :
  vehicle_routing_problem_time_windows data = Ok model →
  k ∈ vehicles data →
  let end_depot := num_locations data - 1 in
  Equal (PresenceOf (vehicle_visit k 0)) (Const 1) ∈ model ∧
  Equal (PresenceOf (vehicle_visit k end_depot)) (Const 1) ∈ model ∧
  First (route data k) (vehicle_visit k 0) ∈ model ∧
  Last (route data k) (vehicle_visit k end_depot) ∈ model ∧
  ∀ sol, feasible model sol →
    present sol (T__ k 0) ∧ present sol (T__ k end_depot) ∧
    NoDup (order sol (R_ k)) ∧
    (∀ x, x ∈ order sol (R_ k)
          ↔ ∃ l, l ∈ locations data ∧ x = T__ k l ∧ present sol x) ∧
    head (order sol (R_ k)) = Some (T__ k 0) ∧
    last (order sol (R_ k)) = Some (T__ k end_depot).
Proof.
  intros H Hk end_depot.
  assert (∀ st, st ∈ depot_statements data k → st ∈ model) as Hin.
  { intros. by eapply model_depot. }
  do 4 (split;
    [apply Hin; unfold depot_statements; rewrite !elem_of_cons; by auto 10|]).
  intros sol Hf.
  destruct (feasible_depot _ _ _ _ H Hk Hf) as (Hp0 & Hp1 & Hhd & Hlast).
  destruct (feasible_route _ _ _ _ H Hk Hf) as (Hseq & _).
  repeat split; try done.
  - apply Hseq.
  - by apply route_order.
  - by apply route_order.
Qed.

(** C3.  For every vehicle [k], the built model holds the no-overlap
    constraint on [k]'s route with [edge_weights] as its transition matrix;
    in every feasible assignment no two of [k]'s present intervals overlap,
    and whenever the interval at location [i] comes before the one at
    location [j] in [k]'s route (in particular when they are consecutive:
    [mid = []]), [start(j) >= end(i) + edge_weights[i][j]]. *)
Theorem visits_do_not_overlap data model k :
  vehicle_routing_problem_time_windows data = Ok model →
  k ∈ vehicles data →
  NoOverlap (route data k) (edge_weights data) ∈ model ∧
  ∀ sol, feasible model sol →
    (∀ i j si ei sj ej,
       i ∈ locations data → j ∈ locations data → i ≠ j →
       itv sol (T__ k i) = Some (si, ei) → itv sol (T__ k j) = Some (sj, ej) →
       ei ≤ sj ∨ ej ≤ si) ∧
    (∀ pre a mid b post,
       order sol (R_ k) = pre ++ a :: mid ++ b :: post →
       ∃ i j si ei sj ej,
         i ∈ locations data ∧ j ∈ locations data ∧
         a = T__ k i ∧ b = T__ k j ∧
         itv sol a = Some (si, ei) ∧ itv sol b = Some (sj, ej) ∧
         ei ≤ sj ∧
         ∀ w, transition (edge_weights data) (Z.to_nat i) (Z.to_nat j) = Some w →
              ei + w ≤ sj).
Proof.
  intros H Hk. split; [by eapply model_no_overlap|].
  intros sol Hf.
  destruct (feasible_route _ _ _ _ H Hk Hf) as (Hseq & Hpw).
  split.
  - intros i j si ei sj ej Hi Hj Hne Hsi Hsj.
    assert (T__ k i ∈ order sol (R_ k)) as Hini.
    { apply (route_order data); [done|]. exists i. unfold present. rewrite Hsi. eauto. }
    assert (T__ k j ∈ order sol (R_ k)) as Hinj.
    { apply (route_order data); [done|]. exists j. unfold present. rewrite Hsj. eauto. }
    destruct (pairwise_either _ _ _ _ Hpw Hini Hinj) as [Hp|Hp].
    + congruence.
    + unfold precedes in Hp. rewrite Hsi, Hsj in Hp. left. tauto.
    + unfold precedes in Hp. rewrite Hsi, Hsj in Hp. right. tauto.
  - intros pre a mid b post Ho.
    assert (a ∈ order sol (R_ k)) as Ha.
    { rewrite Ho, elem_of_app. right. left. }
    assert (b ∈ order sol (R_ k)) as Hb.
    { rewrite Ho, elem_of_app, elem_of_cons, elem_of_app. right. right. right. left. }
    apply (route_order data) in Ha as (i & Hi & -> & [[si ei] Hsi]); [|done].
    apply (route_order data) in Hb as (j & Hj & -> & [[sj ej] Hsj]); [|done].
    rewrite Ho in Hpw. apply pairwise_before in Hpw.
    unfold precedes in Hpw. rewrite Hsi, Hsj in Hpw.
    rewrite !type_of_route in Hpw by done. simpl in Hpw.
    destruct Hpw as [Hle Htr].
    exists i, j, si, ei, sj, ej. repeat split; try done.
    intros w Hw. by rewrite Hw in Htr.
Qed.

Lemma inject_Z_sub a b : (inject_Z (a - b) == inject_Z a - inject_Z b)%Q.
Proof. unfold Z.sub. by rewrite inject_Z_plus, inject_Z_opp. Qed.

Lemma fixed_size st z : within (st, st) z → (inject_Z z == st)%Q.
Proof. intros [H1 H2]. simpl in *. by apply Qle_antisym. Qed.

(** C8.  For every client, [create_visit_variables] stores an interval
    whose size is fixed to the client's service time, whose minimum start is
    the opening of the client's time window and whose maximum end is its
    closing plus the service time; in every feasible assignment the visit
    starts inside the window and ends exactly one service time later, hence
    no later than the closing plus the service time. *)
Theorem visit_within_time_window data model client :
  vehicle_routing_problem_time_windows data = Ok model →
  client ∈ clients data →
  ∃ visits st tw_early tw_late,
    create_visit_variables data = Ok visits ∧
    getitem (service_time data) client = Ok st ∧
    getitem (time_windows data) client = Ok [tw_early; tw_late] ∧
    visits !! client = Some (visit client st tw_early tw_late) ∧
    iv_size (visit client st tw_early tw_late) = (st, st) ∧
    (iv_start (visit client st tw_early tw_late)).1 = tw_early ∧
    (iv_end (visit client st tw_early tw_late)).2 = (tw_late + st)%Q ∧
    ∀ sol, feasible model sol →
      ∃ s e, itv sol (T_ client) = Some (s, e) ∧
             (tw_early <= inject_Z s)%Q ∧ (inject_Z s <= tw_late)%Q ∧
             (inject_Z e == inject_Z s + st)%Q ∧
             (inject_Z e <= tw_late + st)%Q.
Proof.
  intros H Hc. pose proof H as H'.
  unfold vehicle_routing_problem_time_windows in H'.
  apply bind_Ok in H' as (visits & Hvisits & _).
  destruct (create_visit_variables_Ok _ _ Hvisits client Hc) as (v & Hv & Hlook).
  apply visit_of_Ok in Hv as (st & tw_early & tw_late & Hst & Htw & ->).
  exists visits, st, tw_early, tw_late.
  do 7 (split; [done|]).
  intros sol Hf.
  destruct (feasible_alternative _ _ _ _ H Hc Hf)
    as (st' & e' & l' & s & e & Hst' & Htw' & _ & Hok & Hs & _).
  rewrite Hst in Hst'. rewrite Htw in Htw'. simplify_eq.
  unfold interval_ok in Hok. simpl in Hok. rewrite Hs in Hok.
  destruct Hok as ([Hs1 _] & [_ He2] & _ & Hsize). simpl in *.
  apply fixed_size in Hsize. rewrite inject_Z_sub in Hsize.
  exists s, e. split; [done|].
  assert (inject_Z e == inject_Z s + st')%Q as Heq.
  { rewrite <- Hsize. ring. }
  repeat split; [done| |done|done].
  rewrite Heq in He2. by apply Qplus_le_l in He2.
Qed.

(** *** Sums *)

Section sums.
Context {A : Type}.
Implicit Types (f g : A → Z) (l : list A).

Lemma Zsum_cons f x l : Zsum (f <$> x :: l) = f x + Zsum (f <$> l).
Proof. reflexivity. Qed.

Lemma Zsum_zero f l : (∀ x, x ∈ l → f x = 0) → Zsum (f <$> l) = 0.
Proof.
  induction l as [|x l IH]; intros H; [done|].
  rewrite Zsum_cons, H by left. rewrite IH; [done|]. intros. apply H. by right.
Qed.

Lemma Zsum_add f g l :
  Zsum ((λ x, f x + g x) <$> l) = Zsum (f <$> l) + Zsum (g <$> l).
Proof. induction l as [|x l IH]; [done|]. rewrite !Zsum_cons, IH. lia. Qed.

Lemma Zsum_le f g l :
  (∀ x, x ∈ l → f x ≤ g x) → Zsum (f <$> l) ≤ Zsum (g <$> l).
Proof.
  induction l as [|x l IH]; intros H; [done|]. rewrite !Zsum_cons.
  assert (f x ≤ g x) by (apply H; left).
  assert (Zsum (f <$> l) ≤ Zsum (g <$> l)) by (apply IH; intros; apply H; by right).
  lia.
Qed.

Lemma Zsum_filter (P : A → Prop) `{∀ x, Decision (P x)} f l :
  (∀ x, x ∈ l → ¬ P x → f x = 0) → Zsum (f <$> l) = Zsum (f <$> filter P l).
Proof.
  induction l as [|x l IH]; intros H0; [done|].
  rewrite Zsum_cons, IH by (intros; apply H0; [by right | done]).
  rewrite filter_cons. destruct (decide (P x)) as [HP|HP].
  - by rewrite Zsum_cons.
  - rewrite H0; [done | left | done].
Qed.

Lemma Zsum_one (P : A → Prop) `{∀ x, Decision (P x)} f l v :
  length (filter P l) = 1%nat →
  (∀ x, x ∈ l → P x → f x = v) →
  (∀ x, x ∈ l → ¬ P x → f x = 0) →
  Zsum (f <$> l) = v.
Proof.
  intros Hlen Hv H0. rewrite (Zsum_filter P) by done.
  destruct (filter P l) as [|x [|? ?]] eqn:Hf; try discriminate.
  assert (x ∈ filter P l) as Hx by (rewrite Hf; left).
  apply list_elem_of_filter in Hx as [HP Hx].
  rewrite Zsum_cons, (Hv x) by done. simpl. lia.
Qed.

Lemma Zsum_submseteq f l k :
  l ⊆+ k → (∀ x, x ∈ k → 0 ≤ f x) → Zsum (f <$> l) ≤ Zsum (f <$> k).
Proof.
  induction 1 as [|x l k _ IH|x y l|x l k _ IH|l k m Hlk IH1 Hkm IH2];
    intros Hpos; rewrite ?Zsum_cons.
  - done.
  - assert (Zsum (f <$> l) ≤ Zsum (f <$> k)); [|lia].
    apply IH. intros. apply Hpos. by right.
  - lia.
  - assert (0 ≤ f x) by (apply Hpos; left).
    assert (Zsum (f <$> l) ≤ Zsum (f <$> k)); [|lia].
    apply IH. intros. apply Hpos. by right.
  - etrans; [apply IH1|apply IH2; done].
    intros x Hx. apply Hpos. by eapply elem_of_submseteq.
Qed.

End sums.

Lemma Zsum_swap {A B} (F : A → B → Z) (l : list A) (k : list B) :
  Zsum ((λ x, Zsum ((λ y, F x y) <$> k)) <$> l)
  = Zsum ((λ y, Zsum ((λ x, F x y) <$> l)) <$> k).
Proof.
  induction l as [|x l IH].
  - symmetry. by apply Zsum_zero.
  - rewrite Zsum_cons, IH, <- Zsum_add. done.
Qed.

Lemma Qsum_inject (zs : list Z) : (Qsum (inject_Z <$> zs) == inject_Z (Zsum zs))%Q.
Proof.
  induction zs as [|z zs IH]; [done|].
  change (inject_Z z + Qsum (inject_Z <$> zs) == inject_Z (z + Zsum zs))%Q.
  by rewrite IH, inject_Z_plus.
Qed.

(** Present intervals with non-negative starts that follow one another end,
    in total length, no later than the last of them. *)
Lemma chain_sum (sol : Solution) (o : list name) z :
  (∀ x, x ∈ o → 0 ≤ start_in sol x ∧
                length_in sol x = end_in sol x - start_in sol x) →
  pairwise (λ a b, end_in sol a ≤ start_in sol b) o →
  last o = Some z →
  Zsum (length_in sol <$> o) ≤ end_in sol z.
Proof.
  intros Hok Hpw Hlast.
  assert (∀ x o', o = x :: o' →
            Zsum (length_in sol <$> o) ≤ end_in sol z - start_in sol x) as Hgen.
  { clear -Hok Hpw Hlast. revert Hok Hpw Hlast.
    induction o as [|y o IH]; intros Hok Hpw Hlast x o' Heq; [done|].
    injection Heq as -> ->. rewrite Zsum_cons.
    destruct (Hok x) as [_ Hlen]; [left|]. rewrite Hlen.
    destruct o' as [|y o''].
    - simpl in Hlast. injection Hlast as ->. simpl. lia.
    - destruct Hpw as [Hx Hpw]. apply Forall_cons in Hx as [Hxy _].
      assert (Zsum (length_in sol <$> y :: o'') ≤ end_in sol z - start_in sol y).
      { eapply IH; [| done | | done].
        - intros. apply Hok. by right.
        - by rewrite last_cons_cons in Hlast. }
      lia. }
  destruct o as [|x o']; [done|].
  specialize (Hgen x o' eq_refl). destruct (Hok x) as [Hpos _]; [left|]. lia.
Qed.

Lemma pairwise_impl {A} (R R' : A → A → Prop) l :
  (∀ a b, a ∈ l → b ∈ l → R a b → R' a b) → pairwise R l → pairwise R' l.
Proof.
  induction l as [|x l IH]; simpl; [done|]. intros Himp [Hx Hl]. split.
  - rewrite Forall_forall in *. intros y Hy.
    apply Himp; [left | by right | by apply Hx].
  - apply IH; [|done]. intros a b Ha Hb. apply Himp; by right.
Qed.

(** *** The objective is non-negative *)

(** On one vehicle, the clients it serves are served one after the other
    before the end depot is reached. *)
Lemma vehicle_service_bound data model sol k :
  vehicle_routing_problem_time_windows data = Ok model → k ∈ vehicles data →
  feasible model sol →
  Zsum ((λ c, length_in sol (T__ k c)) <$> clients data)
  ≤ end_in sol (T__ k (num_locations data - 1)).
Proof.
  intros H Hk Hf.
  destruct (feasible_route _ _ _ _ H Hk Hf) as (Hseq & Hpw).
  destruct (feasible_depot _ _ _ _ H Hk Hf) as (_ & _ & _ & Hlast).
  assert (∀ x, x ∈ order sol (R_ k) →
            is_Some (itv sol x) ∧ 0 ≤ start_in sol x ∧ 0 ≤ length_in sol x ∧
            length_in sol x = end_in sol x - start_in sol x) as Hel.
  { intros x Hx. apply (route_order data) in Hx as (l & Hl & -> & [[s e] Hs]); [|done].
    pose proof (route_interval_ok _ _ _ _ Hseq Hl) as Hok.
    destruct (vehicle_visit_times _ _ _ _ _ Hok Hs).
    unfold start_in, length_in, end_in. rewrite Hs. split; [eauto|lia]. }
  etrans; [|apply (chain_sum sol (order sol (R_ k)))]; [| |  |done].
  - rewrite (list_fmap_compose (T__ k) (length_in sol)).
    rewrite (Zsum_filter (present sol)).
    2:{ intros x _ Hx. unfold present in Hx. unfold length_in.
        destruct (itv sol x); [|done]. exfalso. eauto. }
    apply Zsum_submseteq; [|intros x Hx; by apply Hel].
    apply NoDup_submseteq.
    + apply NoDup_filter, NoDup_fmap_2; [|apply NoDup_range].
      by intros a b [= ->].
    + intros x [Hp Hx]%list_elem_of_filter.
      apply list_elem_of_fmap in Hx as (c & -> & Hc).
      apply (route_order data); [done|]. exists c.
      split; [by apply clients_are_locations | done].
  - intros x Hx. destruct (Hel x Hx) as (_ & ? & _ & ?). done.
  - eapply pairwise_impl; [|exact Hpw]. simpl.
    intros a b Ha Hb Hab.
    destruct (Hel a Ha) as ([[sa ea] Hsa] & _), (Hel b Hb) as ([[sb eb] Hsb] & _).
    unfold precedes in Hab. unfold end_in, start_in. rewrite Hsa, Hsb in *. tauto.
Qed.

(** A client's service time is the total length of its per-vehicle
    intervals: one of them is present and coincides with the visit. *)
Lemma client_service_time data model sol c st :
  vehicle_routing_problem_time_windows data = Ok model → c ∈ clients data →
  feasible model sol →
  getitem (service_time data) c = Ok st →
  (inject_Z (Zsum ((λ k, length_in sol (T__ k c)) <$> vehicles data)) == st)%Q.
Proof.
  intros H Hc Hf Hst.
  destruct (feasible_alternative _ _ _ _ H Hc Hf)
    as (st' & e' & l' & s & e & Hst' & _ & _ & Hok & Hs & Hone & Hsame).
  rewrite Hst in Hst'. injection Hst' as <-.
  unfold interval_ok in Hok. simpl in Hok. rewrite Hs in Hok.
  destruct Hok as (_ & _ & _ & Hsize). apply fixed_size in Hsize.
  rewrite <- Hsize.
  assert (Zsum ((λ k, length_in sol (T__ k c)) <$> vehicles data) = e - s) as ->;
    [|done].
  change (λ k, length_in sol (T__ k c))
    with ((λ a, length_in sol (iv_name a)) ∘ (λ k, vehicle_visit k c)).
  rewrite list_fmap_compose.
  apply (Zsum_one (λ a, present sol (iv_name a))); [done| |].
  - intros a [k [-> Hk]]%list_elem_of_fmap Hp. simpl in *.
    unfold length_in. by rewrite (Hsame k Hk Hp).
  - intros a _ Hp. unfold present in Hp. unfold length_in.
    destruct (itv sol (iv_name a)); [|done]. exfalso. eauto.
Qed.

Lemma eval_Sum_Const sol (qs : list Q) : eval sol (Sum (Const <$> qs)) = Qsum qs.
Proof.
  simpl. f_equal. induction qs as [|q qs IH]; [done|].
  rewrite fmap_cons. simpl. by f_equal.
Qed.

Lemma eval_Sum_EndOf sol (f : Z → CpoIntervalVar) (ks : list Z) :
  (eval sol (Sum ((λ k, EndOf (f k)) <$> ks))
   == inject_Z (Zsum ((λ k, end_in sol (iv_name (f k))) <$> ks)))%Q.
Proof.
  rewrite <- Qsum_inject. simpl.
  assert (map (eval sol) ((λ k, EndOf (f k)) <$> ks)
          = inject_Z <$> ((λ k, end_in sol (iv_name (f k))) <$> ks)) as ->; [|done].
  induction ks as [|k ks IH]; [done|].
  rewrite !fmap_cons. simpl. f_equal; [|done].
  unfold end_in. by destruct (itv sol (iv_name (f k))) as [[? ?]|].
Qed.

(** C4.  The built model minimizes the sum, over the vehicles, of the end of
    the vehicle's end-depot interval minus the sum, over the clients, of the
    client's service time; in every feasible assignment the end-depot
    intervals are present, the objective has that value, and the value is
    non-negative. *)
Theorem objective_is_travel_time data model :
  vehicle_routing_problem_time_windows data = Ok model →
  let end_depot := num_locations data - 1 in
  ∃ service_times,
    comprehension (getitem (service_time data)) (clients data) = Ok service_times ∧
    objective model
    = Some (Minus (Sum ((λ k, EndOf (vehicle_visit k end_depot)) <$> vehicles data))
                  (Sum (Const <$> service_times))) ∧
    ∀ sol, feasible model sol →
      (∀ k, k ∈ vehicles data → present sol (T__ k end_depot)) ∧
      (eval sol (Minus (Sum ((λ k, EndOf (vehicle_visit k end_depot)) <$> vehicles data))
                       (Sum (Const <$> service_times)))
       == inject_Z (Zsum ((λ k, end_in sol (T__ k end_depot)) <$> vehicles data))
          - Qsum service_times)%Q ∧
      (0 <= eval sol (Minus (Sum ((λ k, EndOf (vehicle_visit k end_depot))
                                    <$> vehicles data))
                            (Sum (Const <$> service_times))))%Q.
Proof.
  intros H end_depot. pose proof H as H'.
  apply vehicle_routing_problem_time_windows_Ok in H'
    as (sts & alts & Hsts & _ & _ & Hmodel).
  exists sts. split; [done|]. split; [by rewrite Hmodel|].
  intros sol Hf.
  assert (eval sol (Minus (Sum ((λ k, EndOf (vehicle_visit k end_depot))
                                  <$> vehicles data))
                          (Sum (Const <$> sts)))
          == inject_Z (Zsum ((λ k, end_in sol (T__ k end_depot)) <$> vehicles data))
             - Qsum sts)%Q as Hval.
  { change (eval sol (Minus ?a ?b)) with (eval sol a - eval sol b)%Q.
    by rewrite eval_Sum_Const, eval_Sum_EndOf. }
  split; [|split; [done|]].
  { intros k Hk. by destruct (feasible_depot _ _ _ _ H Hk Hf) as (_ & ? & _). }
  rewrite Hval.
  assert (Qsum sts
          == inject_Z (Zsum ((λ c, Zsum ((λ k, length_in sol (T__ k c))
                                           <$> vehicles data)) <$> clients data)))%Q
    as ->.
  { apply comprehension_Forall2 in Hsts.
    assert (∀ cs qs,
              Forall2 (λ c q, getitem (service_time data) c = Ok q) cs qs →
              (∀ c, c ∈ cs → c ∈ clients data) →
              Qsum qs
              == inject_Z (Zsum ((λ c, Zsum ((λ k, length_in sol (T__ k c))
                                               <$> vehicles data)) <$> cs)))%Q
      as Hgen; [|by apply Hgen].
    clear Hsts. intros cs qs Hqs Hsub.
    induction Hqs as [|c q cs qs Hc _ IH]; [done|].
    rewrite Zsum_cons, inject_Z_plus.
    change (Qsum (q :: qs)) with (q + Qsum qs)%Q.
    rewrite IH by (intros; apply Hsub; by right).
    rewrite (client_service_time _ _ _ _ _ H (Hsub c ltac:(left)) Hf Hc). done. }
  rewrite (Zsum_swap (λ c k, length_in sol (T__ k c))).
  rewrite <- inject_Z_sub. change 0%Q with (inject_Z 0). rewrite <- Zle_Qle.
  assert (Zsum ((λ k, Zsum ((λ c, length_in sol (T__ k c)) <$> clients data))
                  <$> vehicles data)
          ≤ Zsum ((λ k, end_in sol (T__ k end_depot)) <$> vehicles data)); [|lia].
  apply Zsum_le. intros k Hk. by eapply vehicle_service_bound.
Qed.

(** C9.  The builder never reads [capacity] or [demand]: two problem data
    that agree on every other field (and on the length of [demand]) yield
    the same result, model for model. *)
Theorem capacity_and_demand_unused data1 data2 :
  num_vehicles data1 = num_vehicles data2 →
  num_locations data1 = num_locations data2 →
  edge_weights data1 = edge_weights data2 →
  service_time data1 = service_time data2 →
  time_windows data1 = time_windows data2 →
  length (demand data1) = length (demand data2) →
  vehicle_routing_problem_time_windows data1
  = vehicle_routing_problem_time_windows data2.
Proof.
  destruct data1, data2. simpl. intros -> -> -> -> -> _. reflexivity.
Qed.

(** *** The builder raises nothing on well-shaped data *)

Lemma getitem_Ok {A} (a : list A) (i : Z) :
  0 ≤ i < Z.of_nat (length a) → ∃ x, getitem a i = Ok x ∧ a !! Z.to_nat i = Some x.
Proof.
  intros Hi. unfold getitem.
  destruct (Z.ltb_spec i 0); [lia|].
  destruct (Z.leb_spec 0 i); [|lia].
  destruct (Z.ltb_spec i (Z.of_nat (length a))); [|lia]. simpl.
  destruct (a !! Z.to_nat i) as [x|] eqn:E; [eauto|].
  apply lookup_ge_None in E. lia.
Qed.

Lemma create_visit_variables_eq data :
  create_visit_variables data
  = for_each (λ (m : gmap Z CpoIntervalVar) x, v ← visit_of data x; Ok (<[x := v]> m))
             ∅ (clients data).
Proof.
  unfold create_visit_variables. apply for_each_ext.
  intros m x _. unfold visit_of.
  destruct (getitem (service_time data) x); simpl; [|done].
  destruct (getitem (time_windows data) x); simpl; [|done].
  destruct (unpack2 _) as [[? ?]|]; simpl; done.
Qed.

Lemma builder_total data :
  (∀ c, c ∈ clients data → is_Ok (visit_of data c)) →
  (vehicles data ≠ [] → 0 < num_locations data) →
  is_Ok (vehicle_routing_problem_time_windows data).
Proof.
  intros Hvis Hnl. unfold vehicle_routing_problem_time_windows.
  assert (∀ k, k ∈ vehicles data → 0 < num_locations data) as Hpos.
  { intros k Hk. apply Hnl. intros Hnil. rewrite Hnil in Hk. by apply elem_of_nil in Hk. }
  destruct (create_visit_variables data) as [visits|] eqn:Hvisits; simpl.
  2:{ assert (is_Ok (create_visit_variables data)) as Hok; [|by rewrite Hvisits in Hok].
      rewrite create_visit_variables_eq. apply for_each_total.
      intros m c Hc. specialize (Hvis c Hc). by destruct (visit_of data c). }
  destruct (create_route_variables _ _) as [routes|] eqn:Hroutes; simpl.
  2:{ assert (is_Ok (create_route_variables data (create_vehicle_visit_variables data)))
        as Hok; [|by rewrite Hroutes in Hok].
      apply for_each_total. intros m k Hk.
      rewrite (comprehension_Ok_all _ (vehicle_visit k)); [done|].
      intros l Hl. by apply dict_get_vvisits_Ok. }
  pose proof (create_visit_variables_Ok _ _ Hvisits) as Hv.
  pose proof (create_route_variables_Ok _ _ Hroutes) as Hr.
  destruct (minimize_total_travel_time _ _ _) as [m1|] eqn:Hm1; simpl.
  2:{ assert (is_Ok (minimize_total_travel_time [] data
                       (create_vehicle_visit_variables data)))
        as Hok; [|by rewrite Hm1 in Hok].
      unfold minimize_total_travel_time.
      rewrite (comprehension_Ok_all _
        (λ k, EndOf (vehicle_visit k (num_locations data - 1)))).
      2:{ intros k Hk. rewrite dict_get_vvisits_Ok; [done..|].
          apply elem_of_range. specialize (Hpos k Hk). lia. }
      simpl.
      destruct (comprehension _ (clients data)) eqn:Hc; simpl; [done|].
      assert (is_Ok (comprehension (λ i, getitem (service_time data) i) (clients data)))
        as Hok; [|by rewrite Hc in Hok].
      apply comprehension_total. intros c Hc'. specialize (Hvis c Hc').
      unfold visit_of in Hvis. by destruct (getitem (service_time data) c). }
  rewrite no_overlap_between_visits_Ok by done. simpl.
  rewrite routes_start_and_end_at_depot_Ok by done. simpl.
  destruct (assign_each_client_to_one_vehicle _ _ _ _) as [m4|] eqn:Hm4; simpl; [done|].
  match type of Hm4 with ?t = _ => assert (is_Ok t) as Hok; [|by rewrite Hm4 in Hok] end.
  apply for_each_total. intros m c Hc.
  rewrite (comprehension_Ok_all _ (λ k, vehicle_visit k c)).
  2:{ intros k Hk. apply dict_get_vvisits_Ok; [done|]. by apply clients_are_locations. }
  simpl. destruct (Hv c Hc) as (v & _ & Hlook). unfold dict_get. by rewrite Hlook.
Qed.

(** C10.  On a valid raw instance [instance2data] succeeds, and in its
    result [service_time] and [time_windows] have [num_locations - 1]
    entries: none for the end depot.  Every client index lies in
    [1, num_locations - 2], so each access [service_time[client]] and
    [time_windows[client]] made while building the model (in
    [create_visit_variables] and [minimize_total_travel_time]) is in bounds;
    when every time window is a pair, no array or dict access of the whole
    builder fails. *)
Theorem client_accesses_in_bounds np instance :
  valid_instance instance →
  ∃ data,
    instance2data np instance = Ok data ∧
    Z.of_nat (length (service_time data)) = num_locations data - 1 ∧
    Z.of_nat (length (time_windows data)) = num_locations data - 1 ∧
    (∀ c, c ∈ clients data →
       1 ≤ c ≤ num_locations data - 2 ∧
       is_Ok (getitem (service_time data) c) ∧
       is_Ok (getitem (time_windows data) c)) ∧
    is_Ok (comprehension (getitem (service_time data)) (clients data)) ∧
    (Forall (λ row, length row = 2%nat) (inst_time_window instance) →
     is_Ok (create_visit_variables data) ∧
     is_Ok (vehicle_routing_problem_time_windows data)).
Proof.
  intros (Hsh & Hst & Htw).
  unfold instance2data. rewrite distance_matrix_of_square by done. simpl.
  eexists. split; [reflexivity|]. simpl.
  rewrite !length_fmap, Hst, Htw.
  set (n := length (inst_demand instance)) in *.
  set (data := {| num_vehicles := _ |}).
  assert (∀ c, c ∈ clients data → 1 ≤ c ≤ Z.of_nat (n + 1) - 2) as Hrange.
  { intros c Hc. apply elem_of_range in Hc. simpl in Hc. lia. }
  assert (∀ c, c ∈ clients data → is_Ok (getitem (service_time data) c)) as Hgst.
  { intros c Hc. specialize (Hrange c Hc).
    destruct (getitem_Ok (service_time data) c) as (x & -> & _); [|done].
    simpl. rewrite length_fmap, Hst. lia. }
  assert (∀ c, c ∈ clients data → is_Ok (getitem (time_windows data) c)) as Hgtw.
  { intros c Hc. specialize (Hrange c Hc).
    destruct (getitem_Ok (time_windows data) c) as (x & -> & _); [|done].
    simpl. rewrite length_fmap, Htw. lia. }
  split; [lia|]. split; [lia|]. split; [by auto|]. split.
  { by apply comprehension_total. }
  intros Hrows.
  assert (∀ c, c ∈ clients data → is_Ok (visit_of data c)) as Hvis.
  { intros c Hc. specialize (Hrange c Hc). unfold visit_of.
    destruct (getitem_Ok (service_time data) c) as (x & -> & _).
    { simpl. rewrite length_fmap, Hst. lia. }
    destruct (getitem_Ok (time_windows data) c) as (row & -> & Hrow).
    { simpl. rewrite length_fmap, Htw. lia. }
    simpl in *. rewrite list_lookup_fmap in Hrow.
    destruct (inst_time_window instance !! Z.to_nat c) as [row0|] eqn:E;
      [|discriminate].
    injection Hrow as <-.
    rewrite Forall_forall in Hrows.
    assert (length row0 = 2%nat) as Hlen.
    { apply Hrows. by eapply list_elem_of_lookup_2. }
    by destruct row0 as [|a [|b [|? ?]]]. }
  split.
  - rewrite create_visit_variables_eq. apply for_each_total.
    intros m c Hc. specialize (Hvis c Hc). by destruct (visit_of data c).
  - apply builder_total; [done|]. simpl. lia.
Qed.

(** ** The worked instance *)

Lemma ex_instance2data : instance2data exact_arithmetic ex_instance = Ok ex_data.
Proof. vm_compute. reflexivity. Qed.

Lemma ex_model_built : vehicle_routing_problem_time_windows ex_data = Ok ex_model.
Proof. vm_compute. reflexivity. Qed.

Lemma ex_solution_feasible : feasible ex_model ex_solution.
Proof. apply (bool_decide_unpack _). vm_compute. exact I. Qed.

Lemma ex_vehicles : vehicles ex_data = [0; 1].
Proof. reflexivity. Qed.

Lemma ex_clients : clients ex_data = [1; 2].
Proof. reflexivity. Qed.

Lemma each_client_on_one_vehicle_witness :
  ∃ k s e,
    k ∈ vehicles ex_data ∧
    itv ex_solution (T_ 2) = Some (s, e) ∧
    itv ex_solution (T__ k 2) = Some (s, e) ∧
    ∀ k', k' ∈ vehicles ex_data → present ex_solution (T__ k' 2) → k' = k.
Proof.
  destruct (each_client_on_one_vehicle ex_data ex_model 2 ex_model_built)
    as (v & _ & _ & _ & _ & _ & Hsol).
  - rewrite ex_clients. apply elem_of_cons. right. apply elem_of_cons. by left.
  - exact (Hsol ex_solution ex_solution_feasible).
Defined.

Lemma ex_vehicle_0 : 0 ∈ vehicles ex_data.
Proof. rewrite ex_vehicles. by left. Qed.

Lemma ex_client_1 : 1 ∈ clients ex_data.
Proof. rewrite ex_clients. by left. Qed.

Lemma routes_bracketed_by_depot_witness :
  present ex_solution (T__ 0 0) ∧ present ex_solution (T__ 0 3) ∧
  head (order ex_solution (R_ 0)) = Some (T__ 0 0) ∧
  last (order ex_solution (R_ 0)) = Some (T__ 0 3).
Proof.
  destruct (routes_bracketed_by_depot ex_data ex_model 0 ex_model_built ex_vehicle_0)
    as (_ & _ & _ & _ & Hsol).
  destruct (Hsol ex_solution ex_solution_feasible) as (H0 & H3 & _ & _ & Hhd & Hlast).
  exact (conj H0 (conj H3 (conj Hhd Hlast))).
Defined.

Lemma visits_do_not_overlap_witness :
  NoOverlap (route ex_data 0) (edge_weights ex_data) ∈ ex_model ∧
  ∃ i j si ei sj ej,
    T__ 0 1 = T__ 0 i ∧ T__ 0 2 = T__ 0 j ∧
    itv ex_solution (T__ 0 1) = Some (si, ei) ∧
    itv ex_solution (T__ 0 2) = Some (sj, ej) ∧
    ei ≤ sj ∧
    ∀ w, transition (edge_weights ex_data) (Z.to_nat i) (Z.to_nat j) = Some w →
         ei + w ≤ sj.
Proof.
  destruct (visits_do_not_overlap ex_data ex_model 0 ex_model_built ex_vehicle_0)
    as (Hin & Hsol).
  split; [exact Hin|].
  destruct (Hsol ex_solution ex_solution_feasible) as (_ & Hcons).
  destruct (Hcons [T__ 0 0] (T__ 0 1) [] (T__ 0 2) [T__ 0 3] eq_refl)
    as (i & j & si & ei & sj & ej & _ & _ & Ha & Hb & Hsa & Hsb & Hle & Hw).
  exists i, j, si, ei, sj, ej. auto 10.
Defined.

Lemma objective_is_travel_time_witness :
  ∃ service_times,
    comprehension (getitem (service_time ex_data)) (clients ex_data) = Ok service_times ∧
    (0 <= eval ex_solution
            (Minus (Sum ((λ k, EndOf (vehicle_visit k 3)) <$> vehicles ex_data))
                   (Sum (Const <$> service_times))))%Q.
Proof.
  destruct (objective_is_travel_time ex_data ex_model ex_model_built)
    as (sts & Hsts & _ & Hsol).
  exists sts. split; [exact Hsts|].
  destruct (Hsol ex_solution ex_solution_feasible) as (_ & _ & Hpos). exact Hpos.
Defined.

Lemma visit_within_time_window_witness :
  ∃ st tw_early tw_late s e,
    getitem (service_time ex_data) 1 = Ok st ∧
    getitem (time_windows ex_data) 1 = Ok [tw_early; tw_late] ∧
    itv ex_solution (T_ 1) = Some (s, e) ∧
    (tw_early <= inject_Z s)%Q ∧ (inject_Z s <= tw_late)%Q ∧
    (inject_Z e == inject_Z s + st)%Q.
Proof.
  destruct (visit_within_time_window ex_data ex_model 1 ex_model_built ex_client_1)
    as (visits & st & tw_early & tw_late & _ & Hst & Htw & _ & _ & _ & _ & Hsol).
  destruct (Hsol ex_solution ex_solution_feasible) as (s & e & Hs & H1 & H2 & H3 & _).
  exists st, tw_early, tw_late, s, e. auto 10.
Defined.

Lemma capacity_and_demand_unused_witness :
  vehicle_routing_problem_time_windows ex_data
  = vehicle_routing_problem_time_windows
      {| num_vehicles := 2; capacity := 1; num_locations := 4;
         edge_weights := edge_weights ex_data;
         service_time := service_time ex_data;
         time_windows := time_windows ex_data;
         demand := [900; 900; 900]%Q |}.
Proof.
  apply capacity_and_demand_unused; reflexivity.
Defined.

Lemma client_accesses_in_bounds_witness :
  valid_instance ex_instance ∧
  ∃ data,
    instance2data exact_arithmetic ex_instance = Ok data ∧
    Z.of_nat (length (service_time data)) = num_locations data - 1 ∧
    Z.of_nat (length (time_windows data)) = num_locations data - 1 ∧
    is_Ok (vehicle_routing_problem_time_windows data).
Proof.
  assert (valid_instance ex_instance) as Hvalid.
  { repeat split. }
  split; [exact Hvalid|].
  destruct (client_accesses_in_bounds exact_arithmetic ex_instance Hvalid)
    as (data & Hd & Hst & Htw & _ & _ & Hbuild).
  exists data. repeat split; [exact Hd | exact Hst | exact Htw |].
  apply Hbuild. repeat constructor.
Defined.

(** * Further properties of the code *)

(** ** [ProblemData] *)

Lemma lookup_range_total lo hi (i : nat) :
  range lo hi !! i = if decide (Z.of_nat i < hi - lo) then Some (lo + Z.of_nat i) else None.
Proof.
  case_decide as Hi; [by apply lookup_range|].
  apply lookup_ge_None. unfold range. rewrite length_fmap, length_seq. lia.
Qed.

Lemma range_cons lo hi : lo < hi → range lo hi = lo :: range (lo + 1) hi.
Proof.
  intros Hlt. apply list_eq. intros [|i].
  - rewrite lookup_range_total, decide_True by lia. simpl. f_equal. lia.
  - simpl. rewrite !lookup_range_total.
    repeat case_decide; try lia; [f_equal; lia | done].
Qed.

Lemma range_snoc lo hi : lo < hi → range lo hi = range lo (hi - 1) ++ [hi - 1].
Proof.
  intros Hlt. apply list_eq. intros i.
  assert (length (range lo (hi - 1)) = Z.to_nat (hi - 1 - lo)) as Hlen.
  { unfold range. by rewrite length_fmap, length_seq. }
  destruct (decide (Z.of_nat i < hi - 1 - lo)) as [Hi|Hi].
  - rewrite lookup_app_l by lia.
    rewrite !lookup_range_total. by rewrite !decide_True by lia.
  - rewrite lookup_app_r, Hlen by lia. rewrite lookup_range_total.
    destruct (decide (Z.of_nat i < hi - lo)) as [Hi'|Hi'].
    + replace (i - Z.to_nat (hi - 1 - lo))%nat with 0%nat by lia. simpl. f_equal. lia.
    + by replace (i - Z.to_nat (hi - 1 - lo))%nat
        with (S (i - Z.to_nat (hi - 1 - lo) - 1)) by lia.
Qed.

(** X1.  With at least two locations, the locations are the start depot 0,
    then the clients, then the end depot [num_locations - 1], in this
    order; so the clients are the locations other than the two depots, and
    there is none unless there are three locations. *)
Theorem locations_are_depot_clients_depot data :
  2 ≤ num_locations data →
  locations data = 0 :: clients data ++ [num_locations data - 1] ∧
  (clients data = [] ↔ num_locations data = 2).
Proof.
  intros Hnl. unfold locations, clients. split.
  - rewrite range_cons by lia. f_equal. simpl. by rewrite range_snoc by lia.
  - split.
    + intros Hnil. destruct (decide (num_locations data = 2)) as [|Hne]; [done|].
      rewrite range_cons in Hnil by lia. discriminate.
    + intros ->. reflexivity.
Qed.

Lemma locations_are_depot_clients_depot_witness :
  locations ex_data = 0 :: clients ex_data ++ [3] ∧
  (clients ex_data = [] ↔ num_locations ex_data = 2).
Proof.
  apply (locations_are_depot_clients_depot ex_data). simpl. lia.
Defined.

(** ** [instance2data] *)

Lemma transition_scaled_Some np r c (f : nat → nat → Q) i j w :
  transition (map (map (scale_floor np)) (tabulate2 r c f)) i j = Some w →
  (i < r)%nat ∧ (j < c)%nat ∧ w = scale_floor np (f i j).
Proof.
  intros H. destruct (decide (i < r)%nat) as [Hi|Hi].
  - destruct (decide (j < c)%nat) as [Hj|Hj].
    + rewrite transition_scaled in H by done. by injection H as <-.
    + unfold transition in H. rewrite list_lookup_fmap, tabulate2_row in H by done.
      simpl in H. rewrite !list_lookup_fmap in H.
      rewrite (proj2 (lookup_ge_None _ _)) in H; [done|]. rewrite length_seq. lia.
  - unfold transition in H. rewrite list_lookup_fmap, tabulate2_row_None in H by lia.
    done.
Qed.

(** X2.  The [edge_weights] of the data [instance2data] returns form a
    square matrix of side [num_locations]: that many rows, each of that
    length, so every pair of locations has an entry. *)
Theorem edge_weights_square np instance data :
  instance2data np instance = Ok data →
  Z.of_nat (length (edge_weights data)) = num_locations data ∧
  Forall (λ row, Z.of_nat (length row) = num_locations data) (edge_weights data) ∧
  ∀ i j, i ∈ locations data → j ∈ locations data →
         is_Some (transition (edge_weights data) (Z.to_nat i) (Z.to_nat j)).
Proof.
  intros H.
  destruct (instance2data_cases _ _ _ H) as (Hnl & [[Hn Hew]|(Hn & Hsh & Hew)]).
  - rewrite Hew, Hnl, Hn. split; [done|]. split; [by repeat constructor|].
    intros i j Hi%elem_of_locations Hj%elem_of_locations.
    rewrite Hnl, Hn in Hi, Hj.
    replace (Z.to_nat i) with 0%nat by lia. replace (Z.to_nat j) with 0%nat by lia.
    by eexists.
  - rewrite Hew, Hnl. set (n := length (inst_demand instance)) in *.
    split; [|split].
    + unfold tabulate2. rewrite !length_fmap, length_seq. lia.
    + apply Forall_forall. intros row Hrow.
      apply list_elem_of_fmap in Hrow as (row0 & -> & Hrow0).
      apply list_elem_of_fmap in Hrow0 as (i & -> & _).
      rewrite !length_fmap, length_seq. lia.
    + intros i j Hi%elem_of_locations Hj%elem_of_locations.
      rewrite transition_scaled by lia. by eexists.
Qed.

Lemma edge_weights_square_witness :
  Z.of_nat (length (edge_weights ex_data)) = 4 ∧
  Forall (λ row, Z.of_nat (length row) = 4) (edge_weights ex_data) ∧
  ∀ i j, i ∈ locations ex_data → j ∈ locations ex_data →
         is_Some (transition (edge_weights ex_data) (Z.to_nat i) (Z.to_nat j)).
Proof.
  exact (edge_weights_square exact_arithmetic ex_instance ex_data ex_instance2data).
Defined.

(** X3.  The corner of the end depot is never written: in the data
    [instance2data] returns, [edge_weights[last][last]] is 0 whatever the
    raw matrix holds, and with a non-empty demand vector
    [edge_weights[0][last]] and [edge_weights[last][0]] both repeat
    [edge_weights[0][0]]. *)
Theorem end_depot_corner np instance data :
  instance2data np instance = Ok data →
  let last := Z.to_nat (num_locations data - 1) in
  transition (edge_weights data) last last = Some 0 ∧
  (inst_demand instance ≠ [] →
   transition (edge_weights data) 0 last = transition (edge_weights data) 0 0 ∧
   transition (edge_weights data) last 0 = transition (edge_weights data) 0 0 ∧
   is_Some (transition (edge_weights data) 0 0)).
Proof.
  intros H last.
  destruct (instance2data_cases _ _ _ H) as (Hnl & [[Hn Hew]|(Hn & Hsh & Hew)]).
  - assert (last = 0%nat) as -> by (unfold last; lia).
    rewrite Hew. split; [done|]. intros Hne.
    by apply length_zero_iff_nil in Hn.
  - set (n := length (inst_demand instance)) in *.
    assert (last = n) as -> by (unfold last; lia).
    rewrite Hew, !transition_scaled by lia. unfold extended. split.
    + bool_cases; by rewrite scale_floor_0.
    + intros _. repeat split; [f_equal; bool_cases.. | by eexists].
Qed.

Lemma end_depot_corner_witness :
  transition (edge_weights ex_data) 3 3 = Some 0 ∧
  transition (edge_weights ex_data) 0 3 = transition (edge_weights ex_data) 0 0.
Proof.
  destruct (end_depot_corner exact_arithmetic ex_instance ex_data ex_instance2data) as (H0 & H1).
  split; [exact H0|]. apply H1. discriminate.
Defined.

(** X4.  [instance2data] keeps symmetry: when the raw matrix is symmetric,
    so is [edge_weights], end depot included. *)
Theorem symmetry_preserved np instance data :
  instance2data np instance = Ok data →
  (∀ i j, cell (rows (inst_edge_weight instance)) i j
          = cell (rows (inst_edge_weight instance)) j i) →
  ∀ i j, transition (edge_weights data) i j = transition (edge_weights data) j i.
Proof.
  intros H Hsym i j.
  assert (∀ a b, item (inst_edge_weight instance) a b
                 = item (inst_edge_weight instance) b a) as Hitem.
  { intros a b. unfold item. by rewrite Hsym. }
  destruct (instance2data_cases _ _ _ H) as (Hnl & [[Hn Hew]|(Hn & Hsh & Hew)]).
  - rewrite Hew. by destruct i as [|[|i]], j as [|[|j]].
  - rewrite Hew. set (n := length (inst_demand instance)) in *.
    destruct (transition _ i j) as [w|] eqn:Hij.
    + apply transition_scaled_Some in Hij as (Hi & Hj & ->).
      rewrite transition_scaled by done. f_equal. f_equal.
      unfold extended. bool_cases; by rewrite Hitem.
    + destruct (transition _ j i) as [w|] eqn:Hji; [|done].
      apply transition_scaled_Some in Hji as (Hj & Hi & _).
      by rewrite transition_scaled in Hij.
Qed.

Lemma symmetry_preserved_witness :
  transition (edge_weights ex_data) 1 3 = transition (edge_weights ex_data) 3 1.
Proof.
  apply (symmetry_preserved exact_arithmetic ex_instance ex_data ex_instance2data).
  intros i j.
  destruct i as [|[|[|i]]], j as [|[|[|j]]]; try reflexivity;
    unfold cell; simpl; by destruct j.
Defined.

Lemma instance2data_is_Ok np instance :
  is_Ok (instance2data np instance) ↔ is_Ok (distance_matrix_of instance).
Proof. unfold instance2data. by destruct (distance_matrix_of instance). Qed.

(** X7.  When [instance2data] returns.  It returns a [ProblemData] exactly
    when the raw matrix is [n x n] for [n] the length of the demand vector,
    or when the demand vector is empty and the raw matrix has at most one
    row and at most one column; in every other case it raises. *)
Theorem instance2data_succeeds_iff np instance :
  let n := length (inst_demand instance) in
  is_Ok (instance2data np instance)
  ↔ shape (inst_edge_weight instance) = (n, n) ∨
    (n = 0 ∧ (shape (inst_edge_weight instance)).1 ≤ 1
           ∧ (shape (inst_edge_weight instance)).2 ≤ 1)%nat.
Proof.
  intros n. rewrite instance2data_is_Ok. split.
  - intros Hok. destruct (decide (n = 0%nat)) as [Hn|Hn].
    + right. split; [done|].
      unfold distance_matrix_of in Hok. fold n in Hok. rewrite Hn in Hok.
      apply is_Ok_bind in Hok as (block & Hb & _).
      assert (is_Ok (broadcast_to (inst_edge_weight instance) (0 + 1 - 1) (0 + 1 - 1)))
        as Hb' by (by rewrite Hb).
      apply broadcast_to_is_Ok in Hb'. simpl in Hb'. lia.
    + left. by apply distance_matrix_of_shape.
  - intros [Hsh|(Hn & Hr & Hc)].
    + by rewrite distance_matrix_of_square.
    + unfold distance_matrix_of. fold n. rewrite Hn. simpl.
      destruct (broadcast_to _ _ _) eqn:Hb; simpl; [done|].
      assert (is_Ok (broadcast_to (inst_edge_weight instance) 0 0)) as Hb';
        [|by rewrite Hb in Hb'].
      apply broadcast_to_is_Ok. lia.
Qed.

(** X8.  Which exception [instance2data] raises.  A raw matrix with an axis
    that is neither the length [n] of the demand vector nor 1 stops the
    slice assignment with [ValueError]; a raw matrix that broadcasts but is
    not [n x n] (one of its axes is 1 while [n >= 2]) passes the assignment
    and stops the mirroring loop with [IndexError]. *)
Theorem instance2data_error_kind np instance :
  let n := length (inst_demand instance) in
  let r := (shape (inst_edge_weight instance)).1 in
  let c := (shape (inst_edge_weight instance)).2 in
  ((r ≠ n ∧ r ≠ 1%nat) ∨ (c ≠ n ∧ c ≠ 1%nat) →
   instance2data np instance = Raise ValueError) ∧
  (n ≠ 0%nat → (r = n ∨ r = 1%nat) → (c = n ∨ c = 1%nat) → ¬ (r = n ∧ c = n) →
   instance2data np instance = Raise IndexError).
Proof.
  intros n r c. split.
  - intros Hbad. unfold instance2data, distance_matrix_of. fold n.
    replace (n + 1 - 1)%nat with n by lia.
    destruct (broadcast_to (inst_edge_weight instance) n n) as [block|e] eqn:Hb.
    + assert (is_Ok (broadcast_to (inst_edge_weight instance) n n)) as Hb'
        by (by rewrite Hb).
      apply broadcast_to_is_Ok in Hb'. fold r c in Hb'. lia.
    + unfold broadcast_to in Hb. destruct (shape _). case_match; [discriminate|].
      by injection Hb as <-.
  - intros Hn Hr Hc Hne.
    assert (¬ is_Ok (distance_matrix_of instance)) as Hfail.
    { intros Hok. apply distance_matrix_of_shape in Hok; [|done].
      apply Hne. unfold r, c. rewrite Hok. done. }
    apply not_Ok_Raise in Hfail as (e & He).
    unfold instance2data. rewrite He. simpl. f_equal.
    unfold distance_matrix_of in He. fold n in He.
    replace (n + 1 - 1)%nat with n in He by lia.
    destruct (broadcast_to (inst_edge_weight instance) n n) as [block|e'] eqn:Hb.
    + simpl in He. revert He. apply (for_each_Raise (λ e, e = IndexError)).
      clear. intros dm idx e. unfold mirror_depot, getitem2, setitem2.
      repeat (case_match; simpl; try discriminate); by intros [= <-].
    + assert (is_Ok (broadcast_to (inst_edge_weight instance) n n)) as Hb';
        [|by rewrite Hb in Hb'].
      apply broadcast_to_is_Ok. by fold r c.
Qed.

Lemma instance2data_error_kind_witness :
  instance2data exact_arithmetic
    {| inst_demand := [0; 1]%Q;
       inst_edge_weight := NdArray2 (3, 3)%nat [[0; 1; 2]; [1; 0; 1]; [2; 1; 0]]%Q eq_refl;
       inst_service_time := [0; 1]%Q;
       inst_time_window := [[0; 100]; [0; 100]]%Q;
       inst_vehicles := 1; inst_capacity := 10 |} = Raise ValueError ∧
  instance2data exact_arithmetic
    {| inst_demand := [0; 1]%Q;
       inst_edge_weight := NdArray2 (1, 2)%nat [[0; 1]]%Q eq_refl;
       inst_service_time := [0; 1]%Q;
       inst_time_window := [[0; 100]; [0; 100]]%Q;
       inst_vehicles := 1; inst_capacity := 10 |} = Raise IndexError.
Proof.
  split.
  - apply instance2data_error_kind. simpl. left. lia.
  - apply instance2data_error_kind; simpl; [lia | right; lia | left; lia | lia].
Defined.

(** ** The variable builders *)

(** X9.  [create_vehicle_visit_variables] fills the dict with one entry per
    vehicle and location, depots included, and nothing else: the entry at
    [(k, l)] exists exactly for [0 <= k < num_vehicles] and
    [0 <= l < num_locations], and is the optional interval named
    [T_{k}_{l}] with no bound of its own. *)
Theorem vehicle_visit_variables_cover data k l v :
  create_vehicle_visit_variables data !! (k, l) = Some v
  ↔ 0 ≤ k < num_vehicles data ∧ 0 ≤ l < num_locations data ∧
    v = interval_var (T__ k l) None true.
Proof.
  rewrite vvisits_lookup. rewrite <- elem_of_vehicles, <- elem_of_locations.
  case_decide as Hin; split.
  - intros [= <-]. tauto.
  - intros (_ & _ & ->). done.
  - discriminate.
  - tauto.
Qed.

Lemma getitem_nonneg {A} (a : list A) (i : Z) :
  0 ≤ i →
  getitem a i = match a !! Z.to_nat i with Some x => Ok x | None => Raise IndexError end.
Proof.
  intros Hi. unfold getitem.
  destruct (Z.ltb_spec i 0); [lia|]. destruct (Z.leb_spec 0 i); [|lia]. simpl.
  destruct (Z.ltb_spec i (Z.of_nat (length a))); [done|].
  rewrite (proj2 (lookup_ge_None _ _)); [done | lia].
Qed.

Lemma unpack2_is_Ok {A} (row : list A) : is_Ok (unpack2 row) ↔ ∃ x y, row = [x; y].
Proof.
  destruct row as [|x [|y [|z row]]]; simpl; split; try tauto; eauto;
    by intros (? & ? & ?).
Qed.

Lemma visit_of_is_Ok data c :
  0 ≤ c →
  is_Ok (visit_of data c)
  ↔ is_Some (service_time data !! Z.to_nat c) ∧
    ∃ tw_early tw_late, time_windows data !! Z.to_nat c = Some [tw_early; tw_late].
Proof.
  intros Hc. unfold visit_of. rewrite !getitem_nonneg by done.
  destruct (service_time data !! Z.to_nat c) as [st|]; simpl.
  2:{ split; [tauto | by intros [[? ?] _]]. }
  destruct (time_windows data !! Z.to_nat c) as [row|]; simpl.
  2:{ split; [tauto | by intros (_ & ? & ? & ?)]. }
  destruct (unpack2 row) as [[e l]|] eqn:Hrow; simpl.
  - apply unpack2_Ok in Hrow as ->. split; [eauto|done].
  - split; [tauto|]. intros (_ & e' & l' & [= ->]). discriminate.
Qed.

Lemma for_each_insert_is_Ok `{Countable K} {V} (f : K → result V) (m0 : gmap K V) xs :
  is_Ok (for_each (λ m x, v ← f x; Ok (<[x := v]> m)) m0 xs)
  ↔ ∀ x, x ∈ xs → is_Ok (f x).
Proof.
  split.
  - intros Hok x Hx.
    destruct (for_each _ m0 xs) as [m|] eqn:Hm; [|done].
    destruct (for_each_insert _ _ _ _ Hm x) as [Hin _].
    destruct (Hin Hx) as (v & -> & _). done.
  - intros Hall. apply for_each_total. intros m x Hx.
    specialize (Hall x Hx). by destruct (f x).
Qed.

(** X10.  When [create_visit_variables] returns, the dict it returns has a
    key for every client and for nothing else (no depot has a visit
    variable), and the interval stored for a client is mandatory and named
    [T_{client}]. *)
Theorem visit_variables_for_clients_only data visits c :
  create_visit_variables data = Ok visits →
  (is_Some (visits !! c) ↔ 1 ≤ c ≤ num_locations data - 2) ∧
  (∀ v, visits !! c = Some v → iv_name v = T_ c ∧ iv_optional v = false).
Proof.
  rewrite create_visit_variables_eq. intros H.
  destruct (for_each_insert _ _ _ _ H c) as [Hin Hout].
  rewrite <- elem_of_clients.
  destruct (decide (c ∈ clients data)) as [Hc|Hc].
  - destruct (Hin Hc) as (v & Hv & Hlook). rewrite Hlook. split; [by split; eauto|].
    intros v' [= <-].
    by apply visit_of_Ok in Hv as (st & e & l & _ & _ & ->).
  - rewrite (Hout Hc), lookup_empty. split; [|done].
    split; [by intros [? ?] | done].
Qed.

Lemma visit_variables_for_clients_only_witness :
  ∃ visits, create_visit_variables ex_data = Ok visits ∧
            is_Some (visits !! 2) ∧ ¬ is_Some (visits !! 0) ∧ ¬ is_Some (visits !! 3).
Proof.
  destruct (create_visit_variables ex_data) as [visits|e] eqn:Hv;
    [|vm_compute in Hv; discriminate].
  exists visits. split; [reflexivity|].
  pose proof (λ c, proj1 (visit_variables_for_clients_only ex_data visits c Hv)) as Hkeys.
  simpl in Hkeys. repeat split.
  - apply Hkeys. lia.
  - intros H0%Hkeys. lia.
  - intros H3%Hkeys. lia.
Defined.

(** X11.  [create_visit_variables] returns a dict only if every client
    index [1 <= c <= num_locations - 2] has an entry in [service_time] and a
    row of exactly two entries in [time_windows]: a missing entry stops
    [service_time[client]] or [time_windows[client]], and a row of another
    length stops the unpacking. *)
Theorem create_visit_variables_needs_client_data data c :
  is_Ok (create_visit_variables data) →
  1 ≤ c ≤ num_locations data - 2 →
  is_Some (service_time data !! Z.to_nat c) ∧
  ∃ tw_early tw_late, time_windows data !! Z.to_nat c = Some [tw_early; tw_late].
Proof.
  rewrite create_visit_variables_eq, for_each_insert_is_Ok.
  intros Hall Hc. apply visit_of_is_Ok; [lia|]. by apply Hall, elem_of_clients.
Qed.

Lemma create_visit_variables_needs_client_data_witness :
  is_Some (service_time ex_data !! 2%nat) ∧
  ∃ tw_early tw_late, time_windows ex_data !! 2%nat = Some [tw_early; tw_late].
Proof.
  apply (create_visit_variables_needs_client_data ex_data 2).
  - vm_compute. exact I.
  - simpl. lia.
Defined.

Lemma create_route_variables_total data :
  is_Ok (create_route_variables data (create_vehicle_visit_variables data)).
Proof.
  apply for_each_total. intros m k Hk.
  rewrite (comprehension_Ok_all _ (vehicle_visit k)); [done|].
  intros l Hl. by apply dict_get_vvisits_Ok.
Qed.

(** X12.  [create_route_variables], run on the dict that
    [create_vehicle_visit_variables] built from the same data, never misses
    a key: it returns a dict with one sequence per vehicle and nothing
    else, and the sequence of vehicle [k], named [R_{k}], lists [k]'s
    optional intervals once per location, in location order. *)
Theorem route_variables_defined data :
  ∃ routes,
    create_route_variables data (create_vehicle_visit_variables data) = Ok routes ∧
    ∀ k, routes !! k
         = if decide (0 ≤ k < num_vehicles data)
           then Some (sequence_var ((λ l, interval_var (T__ k l) None true)
                                      <$> locations data) (R_ k))
           else None.
Proof.
  set (f := λ k, intervals ← comprehension
                   (λ loc, dict_get (create_vehicle_visit_variables data) (k, loc))
                   (locations data);
                 Ok (sequence_var intervals (R_ k))).
  assert (create_route_variables data (create_vehicle_visit_variables data)
          = for_each (λ (m : gmap Z CpoSequenceVar) x, v ← f x; Ok (<[x := v]> m))
                     ∅ (vehicles data)) as Heq.
  { unfold create_route_variables. apply for_each_ext.
    intros m x _. unfold f. by destruct (comprehension _ _). }
  assert (∀ k, k ∈ vehicles data → f k = Ok (route data k)) as Hf.
  { intros k Hk. unfold f.
    rewrite (comprehension_Ok_all _ (vehicle_visit k)); [done|].
    intros l Hl. by apply dict_get_vvisits_Ok. }
  rewrite Heq. clear Heq.
  destruct (for_each _ ∅ (vehicles data)) as [routes|e] eqn:Hr.
  2:{ exfalso.
      assert (is_Ok (for_each (λ (m : gmap Z CpoSequenceVar) x,
                                 v ← f x; Ok (<[x := v]> m)) ∅ (vehicles data)))
        as Hok; [|by rewrite Hr in Hok].
      apply for_each_insert_is_Ok. intros k Hk. by rewrite Hf. }
  exists routes. split; [done|]. intros k.
  destruct (for_each_insert _ _ _ _ Hr k) as [Hin Hout].
  case_decide as Hk.
  - apply elem_of_vehicles in Hk.
    destruct (Hin Hk) as (v & Hv & ->). rewrite Hf in Hv by done. by injection Hv as <-.
  - rewrite <- elem_of_vehicles in Hk. by rewrite (Hout Hk), lookup_empty.
Qed.

(** ** The whole builder *)

Lemma vehicles_nonempty data : vehicles data ≠ [] ↔ 0 < num_vehicles data.
Proof.
  unfold vehicles. split.
  - intros Hne. destruct (decide (0 < num_vehicles data)) as [|Hle]; [done|].
    exfalso. apply Hne. unfold range.
    by replace (Z.to_nat (num_vehicles data - 0)) with 0%nat by lia.
  - intros Hpos. by rewrite range_cons by lia.
Qed.

(** X13.  [vehicle_routing_problem_time_windows] returns a model only if
    every client index has an entry in [service_time] and a two-entry row in
    [time_windows] and, when there is a vehicle at all, there is at least
    one location; on any other data it raises. *)
Theorem builder_needs_client_data data :
  is_Ok (vehicle_routing_problem_time_windows data) →
  (∀ c, 1 ≤ c ≤ num_locations data - 2 →
        is_Some (service_time data !! Z.to_nat c) ∧
        ∃ tw_early tw_late,
          time_windows data !! Z.to_nat c = Some [tw_early; tw_late]) ∧
  (0 < num_vehicles data → 0 < num_locations data).
Proof.
  intros Hok.
  destruct (vehicle_routing_problem_time_windows data) as [model|] eqn:Hm; [|done].
  pose proof Hm as Hm'.
  apply vehicle_routing_problem_time_windows_Ok in Hm'
    as (sts & alts & _ & _ & Hnl & _).
  split; [|by rewrite <- vehicles_nonempty].
  intros c Hc. apply visit_of_is_Ok; [lia|].
  apply elem_of_clients in Hc.
  destruct (model_alternative _ _ _ Hm Hc) as (v & -> & _). done.
Qed.

Lemma builder_needs_client_data_witness :
  (∀ c, 1 ≤ c ≤ 2 →
        is_Some (service_time ex_data !! Z.to_nat c) ∧
        ∃ tw_early tw_late,
          time_windows ex_data !! Z.to_nat c = Some [tw_early; tw_late]) ∧
  (0 < 2 → 0 < 4).
Proof.
  apply (builder_needs_client_data ex_data).
  rewrite ex_model_built. exact I.
Defined.

(** X14.  With a vehicle but no location ([num_locations <= 0]) the builder
    stops with [KeyError]: there is no client, so no visit variable is
    asked for, and the first lookup of an end-depot interval,
    [vvisits[(0, num_locations - 1)]] in [minimize_total_travel_time],
    finds no key. *)
Theorem builder_KeyError_without_locations data :
  0 < num_vehicles data → num_locations data ≤ 0 →
  vehicle_routing_problem_time_windows data = Raise KeyError.
Proof.
  intros Hnv Hnl. unfold vehicle_routing_problem_time_windows.
  assert (clients data = []) as Hclients.
  { unfold clients, range.
    by replace (Z.to_nat (num_locations data - 1 - 1)) with 0%nat by lia. }
  assert (create_visit_variables data = Ok ∅) as ->.
  { unfold create_visit_variables. by rewrite Hclients. }
  pose proof (create_route_variables_total data) as Hroutes.
  destruct (create_route_variables data _) as [routes|]; [|done].
  cbn [mbind result_bind].
  assert (minimize_total_travel_time [] data (create_vehicle_visit_variables data)
          = Raise KeyError) as ->; [|done].
  assert (dict_get (create_vehicle_visit_variables data) (0, num_locations data - 1)
          = Raise KeyError) as Hget.
  { unfold dict_get. rewrite vvisits_lookup.
    rewrite decide_False; [done|]. rewrite elem_of_locations. lia. }
  unfold minimize_total_travel_time, vehicles. rewrite range_cons by lia.
  cbn [comprehension]. by rewrite Hget.
Qed.

Lemma builder_KeyError_without_locations_witness :
  vehicle_routing_problem_time_windows
    {| num_vehicles := 1; capacity := 10; num_locations := 0;
       edge_weights := []; service_time := []; time_windows := []; demand := [] |}
  = Raise KeyError.
Proof.
  apply builder_KeyError_without_locations; simpl; lia.
Defined.

(** X15.  A built model holds one objective and it comes first; after it
    come one no-overlap constraint per vehicle, in the order of the
    vehicles, then the four depot statements of each vehicle, then one
    alternative per client, in the order of the clients, and nothing else:
    [1 + 5 * num_vehicles + (num_locations - 2)] statements when these
    counts are not negative. *)
Theorem model_statement_count data model :
  vehicle_routing_problem_time_windows data = Ok model →
  ∃ objective alternatives,
    model = Minimize objective
            :: ((λ k, NoOverlap (route data k) (edge_weights data)) <$> vehicles data)
            ++ (vehicles data ≫= depot_statements data)
            ++ alternatives ∧
    Forall2 (λ c st, ∃ v, visit_of data c = Ok v ∧
                          st = Alternative v ((λ k, vehicle_visit k c) <$> vehicles data))
            (clients data) alternatives ∧
    (∃ rest, model = Minimize objective :: rest ∧
             Forall (λ st, ¬ is_Minimize st) rest) ∧
    length ((λ k, NoOverlap (route data k) (edge_weights data)) <$> vehicles data)
    = Z.to_nat (num_vehicles data) ∧
    length (vehicles data ≫= depot_statements data)
    = (4 * Z.to_nat (num_vehicles data))%nat ∧
    length alternatives = Z.to_nat (num_locations data - 2) ∧
    length model
    = (1 + 5 * Z.to_nat (num_vehicles data) + Z.to_nat (num_locations data - 2))%nat.
Proof.
  intros H.
  apply vehicle_routing_problem_time_windows_Ok in H
    as (sts & alts & _ & Halts & _ & ->).
  assert (length (vehicles data) = Z.to_nat (num_vehicles data)) as Hnv.
  { unfold vehicles, range. rewrite length_fmap, length_seq. lia. }
  assert (length (vehicles data ≫= depot_statements data)
          = (4 * Z.to_nat (num_vehicles data))%nat) as Hdep.
  { rewrite <- Hnv. clear. induction (vehicles data) as [|k ks IH]; [done|].
    change (length (depot_statements data k ++ (ks ≫= depot_statements data))
            = (4 * S (length ks))%nat).
    rewrite length_app, IH. simpl. lia. }
  assert (length alts = Z.to_nat (num_locations data - 2)) as Halt.
  { apply Forall2_length in Halts. rewrite <- Halts.
    unfold clients, range. rewrite length_fmap, length_seq. lia. }
  eexists _, alts. split; [reflexivity|]. split; [done|]. split; [|split; [|split; [|split]]].
  - eexists. split; [reflexivity|].
    rewrite !Forall_app. repeat split.
    + apply Forall_forall. intros st (k & -> & _)%list_elem_of_fmap. by intros [].
    + apply Forall_forall. intros st (k & Hst & _)%list_elem_of_bind.
      unfold depot_statements in Hst. rewrite !elem_of_cons in Hst.
      destruct Hst as [->|[->|[->|[->|[]%elem_of_nil]]]]; by intros [].
    + clear -Halts. induction Halts as [|c st cs alts (v & _ & ->) _ IH];
        constructor; [by intros [] | done].
  - by rewrite length_fmap.
  - done.
  - done.
  - simpl. rewrite !length_app, length_fmap, Hnv, Hdep, Halt. lia.
Qed.

Lemma model_statement_count_witness :
  ∃ objective alternatives,
    ex_model = Minimize objective
               :: [NoOverlap (route ex_data 0) (edge_weights ex_data);
                   NoOverlap (route ex_data 1) (edge_weights ex_data)]
               ++ (depot_statements ex_data 0 ++ depot_statements ex_data 1)
               ++ alternatives ∧
    length alternatives = 2%nat ∧
    length ex_model = 13%nat.
Proof.
  destruct (model_statement_count ex_data ex_model ex_model_built)
    as (objective & alternatives & Hm & _ & _ & _ & _ & Halt & Hlen).
  exists objective, alternatives. split; [|split].
  - rewrite Hm. reflexivity.
  - exact Halt.
  - exact Hlen.
Defined.

(** ** What every feasible assignment of a built model looks like *)

Lemma served_by_some_vehicle data model sol c :
  vehicle_routing_problem_time_windows data = Ok model → c ∈ clients data →
  feasible model sol →
  ∃ k s e, k ∈ vehicles data ∧ itv sol (T_ c) = Some (s, e) ∧
           itv sol (T__ k c) = Some (s, e) ∧
           interval_ok sol (vehicle_visit k c) ∧
           ∀ k', k' ∈ vehicles data → present sol (T__ k' c) → k' = k.
Proof.
  intros H Hc Hf.
  destruct (feasible_alternative _ _ _ _ H Hc Hf)
    as (st & e' & l' & s & e & _ & _ & _ & _ & Hs & Hone & Hsame).
  apply filter_length_one in Hone as (a & Ha & Hpa & Huniq).
  apply list_elem_of_fmap in Ha as (k & -> & Hk).
  exists k, s, e. repeat split; [done | done | by apply Hsame | |].
  - destruct (feasible_route _ _ _ _ H Hk Hf) as (Hseq & _).
    eapply route_interval_ok; [done|]. by apply clients_are_locations.
  - intros k' Hk' Hp'.
    assert (vehicle_visit k' c = vehicle_visit k c) as Heq.
    { apply Huniq; [|done]. apply list_elem_of_fmap. eauto. }
    by injection Heq.
Qed.

(** X16.  A built model with a client ([num_locations >= 3]) has a feasible
    assignment only if there is a vehicle: with [num_vehicles <= 0] every
    alternative constraint has an empty list of candidates and cannot
    hold. *)
Theorem feasible_needs_a_vehicle data model sol :
  vehicle_routing_problem_time_windows data = Ok model →
  feasible model sol →
  3 ≤ num_locations data →
  1 ≤ num_vehicles data.
Proof.
  intros H Hf Hnl.
  destruct (served_by_some_vehicle data model sol 1 H) as (k & _ & _ & Hk & _);
    [apply elem_of_clients; lia | done |].
  apply elem_of_vehicles in Hk. lia.
Qed.

Lemma feasible_needs_a_vehicle_witness : 1 ≤ num_vehicles ex_data.
Proof.
  apply (feasible_needs_a_vehicle ex_data ex_model ex_solution
           ex_model_built ex_solution_feasible).
  simpl. lia.
Defined.

(** X17.  What the data of a client must satisfy for a built model to have
    any feasible assignment: its service time is not negative, its time
    window opens no later than it closes, and it closes at a non-negative
    time. *)
Theorem feasible_needs_sound_client_data data model sol c st tw_early tw_late :
  vehicle_routing_problem_time_windows data = Ok model →
  feasible model sol →
  c ∈ clients data →
  getitem (service_time data) c = Ok st →
  getitem (time_windows data) c = Ok [tw_early; tw_late] →
  (0 <= st)%Q ∧ (tw_early <= tw_late)%Q ∧ (0 <= tw_late)%Q.
Proof.
  intros H Hf Hc Hst Htw.
  destruct (feasible_alternative _ _ _ _ H Hc Hf)
    as (st' & e' & l' & s & e & Hst' & Htw' & _ & Hok & Hs & _).
  rewrite Hst in Hst'. rewrite Htw in Htw'. simplify_eq.
  destruct (served_by_some_vehicle _ _ _ _ H Hc Hf)
    as (k & s' & e'' & _ & Hs' & Hks & Hkok & _).
  rewrite Hs in Hs'. simplify_eq.
  destruct (vehicle_visit_times _ _ _ _ _ Hkok Hks) as [Hs0 Hse].
  unfold interval_ok in Hok. simpl in Hok. rewrite Hs in Hok.
  destruct Hok as ([Hs1 _] & [_ He2] & _ & Hsize). simpl in *.
  apply fixed_size in Hsize.
  assert (inject_Z s' <= l')%Q as Hsl.
  { pose proof Hsize as Hsize'. rewrite inject_Z_sub in Hsize'.
    assert (inject_Z e'' == inject_Z s' + st')%Q as Heq.
    { rewrite <- Hsize'. ring. }
    rewrite Heq in He2. by apply Qplus_le_l in He2. }
  assert (0 <= inject_Z s')%Q as Hs0' by (by rewrite <- (Zle_Qle 0)).
  repeat split.
  - rewrite <- Hsize. rewrite <- (Zle_Qle 0). lia.
  - by eapply Qle_trans.
  - by eapply Qle_trans.
Qed.

Lemma feasible_needs_sound_client_data_witness :
  (0 <= 20)%Q ∧ (0 <= 800)%Q ∧ (0 <= 800)%Q.
Proof.
  apply (feasible_needs_sound_client_data ex_data ex_model ex_solution 2 20 0 800
           ex_model_built ex_solution_feasible).
  - rewrite ex_clients. apply elem_of_cons. right. apply elem_of_cons. by left.
  - reflexivity.
  - reflexivity.
Defined.

Lemma pairwise_last {A} (R : A → A → Prop) l z x :
  pairwise R (l ++ [z]) → x ∈ l → R x z.
Proof.
  induction l as [|y l IH]; simpl; [by intros _ ?%elem_of_nil|].
  intros [Hy Hl] [->|Hx]%elem_of_cons; [|by auto].
  rewrite Forall_forall in Hy. apply Hy. rewrite elem_of_app. right. left.
Qed.

(** X18.  In every feasible assignment a client served by vehicle [k] lies,
    in time, between [k]'s two depot intervals and at travelling distance
    from both: the visit starts at least [edge_weights[0][c]] after the
    start depot ends (so not before time [edge_weights[0][c]] when that is
    defined) and the end depot starts at least [edge_weights[c][last]]
    after the visit ends. *)
Theorem client_between_depots data model sol k c s e :
  vehicle_routing_problem_time_windows data = Ok model →
  feasible model sol →
  k ∈ vehicles data → c ∈ clients data →
  itv sol (T__ k c) = Some (s, e) →
  let last := num_locations data - 1 in
  ∃ s0 e0 s1 e1,
    itv sol (T__ k 0) = Some (s0, e0) ∧ itv sol (T__ k last) = Some (s1, e1) ∧
    0 ≤ s0 ∧ s0 ≤ e0 ∧ e0 ≤ s ∧ e ≤ s1 ∧
    (∀ w, transition (edge_weights data) 0 (Z.to_nat c) = Some w → e0 + w ≤ s) ∧
    (∀ w, transition (edge_weights data) (Z.to_nat c) (Z.to_nat last) = Some w →
          e + w ≤ s1).
Proof.
  intros H Hf Hk Hc Hs last.
  pose proof (proj1 (elem_of_clients _ _) Hc) as Hcr.
  destruct (feasible_route _ _ _ _ H Hk Hf) as (Hseq & Hpw).
  destruct (feasible_depot _ _ _ _ H Hk Hf) as ([[s0 e0] Hs0] & [[s1 e1] Hs1] & Hhd & Hlast).
  fold last in Hs1, Hlast.
  assert (0 ∈ locations data) as Hl0 by (apply elem_of_locations; lia).
  assert (last ∈ locations data) as Hl1 by (apply elem_of_locations; unfold last; lia).
  assert (c ∈ locations data) as Hlc by (by apply clients_are_locations).
  assert (T__ k c ∈ order sol (R_ k)) as Hin.
  { apply (route_order data); [done|]. exists c. unfold present. rewrite Hs. eauto. }
  destruct (vehicle_visit_times _ _ _ _ _ (route_interval_ok _ _ _ _ Hseq Hl0) Hs0).
  exists s0, e0, s1, e1. do 4 (split; [done|]).
  assert (precedes sol (route data k) (edge_weights data) (T__ k 0) (T__ k c)) as Hp0.
  { apply head_Some in Hhd as (rest & Ho). rewrite Ho in Hpw, Hin.
    destruct Hpw as [Hall _]. rewrite Forall_forall in Hall. apply Hall.
    apply elem_of_cons in Hin as [[=]|Hin]; [lia | done]. }
  assert (precedes sol (route data k) (edge_weights data) (T__ k c) (T__ k last)) as Hp1.
  { apply last_Some in Hlast as (init & Ho). rewrite Ho in Hpw, Hin.
    eapply pairwise_last; [done|].
    apply elem_of_app in Hin as [Hin|Hin]; [done|].
    apply list_elem_of_singleton in Hin. injection Hin. unfold last. lia. }
  unfold precedes in Hp0, Hp1. rewrite Hs0, Hs in Hp0. rewrite Hs, Hs1 in Hp1.
  rewrite !type_of_route in Hp0, Hp1 by done. simpl in Hp0, Hp1.
  destruct Hp0 as [Hle0 Hw0], Hp1 as [Hle1 Hw1].
  repeat split; [done | done | |].
  - intros w Hw. change (Z.to_nat 0) with 0%nat in Hw0. by rewrite Hw in Hw0.
  - intros w Hw. by rewrite Hw in Hw1.
Qed.

Lemma client_between_depots_witness :
  ∃ s0 e0 s1 e1,
    itv ex_solution (T__ 0 0) = Some (s0, e0) ∧ itv ex_solution (T__ 0 3) = Some (s1, e1) ∧
    0 ≤ s0 ∧ s0 ≤ e0 ∧ e0 ≤ 30 ∧ 50 ≤ s1 ∧
    (∀ w, transition (edge_weights ex_data) 0 2 = Some w → e0 + w ≤ 30) ∧
    (∀ w, transition (edge_weights ex_data) 2 3 = Some w → 50 + w ≤ s1).
Proof.
  apply (client_between_depots ex_data ex_model ex_solution 0 2 30 50
           ex_model_built ex_solution_feasible ex_vehicle_0).
  - rewrite ex_clients. apply elem_of_cons. right. apply elem_of_cons. by left.
  - reflexivity.
Defined.

(** Present intervals with non-negative starts that follow one another at
    the travelling distances end no earlier than their total length plus
    the distance travelled. *)
Lemma chain_sum_travel (sol : Solution) M (o : list name) z :
  (∀ x, x ∈ o → 0 ≤ start_in sol x ∧
                length_in sol x = end_in sol x - start_in sol x) →
  pairwise (λ a b, end_in sol a + hop M a b ≤ start_in sol b) o →
  last o = Some z →
  Zsum (length_in sol <$> o) + route_travel M o ≤ end_in sol z.
Proof.
  intros Hok Hpw Hlast.
  assert (∀ x o', o = x :: o' →
            Zsum (length_in sol <$> o) + route_travel M o
            ≤ end_in sol z - start_in sol x) as Hgen.
  { clear -Hok Hpw Hlast. revert Hok Hpw Hlast.
    induction o as [|y o IH]; intros Hok Hpw Hlast x o' Heq; [done|].
    injection Heq as -> ->. rewrite Zsum_cons.
    destruct (Hok x) as [_ Hlen]; [left|]. rewrite Hlen.
    destruct o' as [|y o''].
    - simpl in Hlast. injection Hlast as ->. simpl. lia.
    - destruct Hpw as [Hx Hpw]. apply Forall_cons in Hx as [Hxy _].
      assert (Zsum (length_in sol <$> y :: o'') + route_travel M (y :: o'')
              ≤ end_in sol z - start_in sol y).
      { eapply IH; [| done | | done].
        - intros. apply Hok. by right.
        - by rewrite last_cons_cons in Hlast. }
      change (route_travel M (x :: y :: o''))
        with (hop M x y + route_travel M (y :: o'')).
      lia. }
  destruct o as [|x o']; [done|].
  specialize (Hgen x o' eq_refl). destruct (Hok x) as [Hpos _]; [left|]. lia.
Qed.

Lemma vehicle_travel_bound data model sol k :
  vehicle_routing_problem_time_windows data = Ok model → k ∈ vehicles data →
  feasible model sol →
  Zsum ((λ c, length_in sol (T__ k c)) <$> clients data)
  + route_travel (edge_weights data) (order sol (R_ k))
  ≤ end_in sol (T__ k (num_locations data - 1)).
Proof.
  intros H Hk Hf.
  destruct (feasible_route _ _ _ _ H Hk Hf) as (Hseq & Hpw).
  destruct (feasible_depot _ _ _ _ H Hk Hf) as (_ & _ & _ & Hlast).
  assert (∀ x, x ∈ order sol (R_ k) →
            (∃ l, l ∈ locations data ∧ x = T__ k l) ∧
            is_Some (itv sol x) ∧ 0 ≤ start_in sol x ∧ 0 ≤ length_in sol x ∧
            length_in sol x = end_in sol x - start_in sol x) as Hel.
  { intros x Hx. apply (route_order data) in Hx as (l & Hl & -> & [[s e] Hs]); [|done].
    pose proof (route_interval_ok _ _ _ _ Hseq Hl) as Hok.
    destruct (vehicle_visit_times _ _ _ _ _ Hok Hs).
    unfold start_in, length_in, end_in. rewrite Hs. split; [eauto|]. split; [eauto|lia]. }
  assert (Zsum ((λ c, length_in sol (T__ k c)) <$> clients data)
          ≤ Zsum (length_in sol <$> order sol (R_ k))) as Hsub.
  { rewrite (list_fmap_compose (T__ k) (length_in sol)).
    rewrite (Zsum_filter (present sol)).
    2:{ intros x _ Hx. unfold present in Hx. unfold length_in.
        destruct (itv sol x); [|done]. exfalso. eauto. }
    apply Zsum_submseteq; [|intros x Hx; by apply Hel].
    apply NoDup_submseteq.
    + apply NoDup_filter, NoDup_fmap_2; [|apply NoDup_range].
      by intros a b [= ->].
    + intros x [Hp Hx]%list_elem_of_filter.
      apply list_elem_of_fmap in Hx as (c & -> & Hc).
      apply (route_order data); [done|]. exists c.
      split; [by apply clients_are_locations | done]. }
  assert (Zsum (length_in sol <$> order sol (R_ k))
          + route_travel (edge_weights data) (order sol (R_ k))
          ≤ end_in sol (T__ k (num_locations data - 1))); [|lia].
  apply chain_sum_travel; [| |done].
  - intros x Hx. destruct (Hel x Hx) as (_ & _ & ? & _ & ?). done.
  - eapply pairwise_impl; [|exact Hpw]. simpl.
    intros a b Ha Hb Hab.
    destruct (Hel a Ha) as ((la & Hla & ->) & [[sa ea] Hsa] & _).
    destruct (Hel b Hb) as ((lb & Hlb & ->) & [[sb eb] Hsb] & _).
    unfold precedes in Hab. rewrite Hsa, Hsb in Hab.
    rewrite !type_of_route in Hab by done. simpl in Hab.
    unfold end_in, start_in, hop. rewrite Hsa, Hsb. simpl.
    destruct Hab as [Hle Hw].
    destruct (transition _ _ _); simpl; lia.
Qed.

(** X19.  The objective of a built model is, in every feasible assignment,
    at least the distance travelled: the sum over the vehicles of
    [edge_weights[i][j]] over the locations [i], [j] the vehicle visits one
    right after the other.  What the model minimizes is travel plus
    waiting, never less than the travel itself. *)
Theorem objective_bounds_travel data model sol e :
  vehicle_routing_problem_time_windows data = Ok model →
  feasible model sol →
  objective model = Some e →
  (inject_Z (Zsum ((λ k, route_travel (edge_weights data) (order sol (R_ k)))
                     <$> vehicles data))
   <= eval sol e)%Q.
Proof.
  intros H Hf He. pose proof H as H'.
  apply vehicle_routing_problem_time_windows_Ok in H'
    as (sts & alts & Hsts & _ & _ & Hmodel).
  rewrite Hmodel in He. injection He as <-.
  unfold travel_time.
  change (eval sol (Minus ?a ?b)) with (eval sol a - eval sol b)%Q.
  rewrite eval_Sum_Const, eval_Sum_EndOf. simpl iv_name.
  assert (Qsum sts
          == inject_Z (Zsum ((λ c, Zsum ((λ k, length_in sol (T__ k c))
                                           <$> vehicles data)) <$> clients data)))%Q
    as ->.
  { apply comprehension_Forall2 in Hsts.
    assert (∀ cs qs,
              Forall2 (λ c q, getitem (service_time data) c = Ok q) cs qs →
              (∀ c, c ∈ cs → c ∈ clients data) →
              Qsum qs
              == inject_Z (Zsum ((λ c, Zsum ((λ k, length_in sol (T__ k c))
                                               <$> vehicles data)) <$> cs)))%Q
      as Hgen; [|by apply Hgen].
    clear Hsts. intros cs qs Hqs Hsub.
    induction Hqs as [|c q cs qs Hc _ IH]; [done|].
    rewrite Zsum_cons, inject_Z_plus.
    change (Qsum (q :: qs)) with (q + Qsum qs)%Q.
    rewrite IH by (intros; apply Hsub; by right).
    rewrite (client_service_time _ _ _ _ _ H (Hsub c ltac:(left)) Hf Hc). done. }
  rewrite (Zsum_swap (λ c k, length_in sol (T__ k c))).
  rewrite <- inject_Z_sub, <- Zle_Qle.
  assert (Zsum ((λ k, Zsum ((λ c, length_in sol (T__ k c)) <$> clients data)
                      + route_travel (edge_weights data) (order sol (R_ k)))
                  <$> vehicles data)
          ≤ Zsum ((λ k, end_in sol (T__ k (num_locations data - 1)))
                    <$> vehicles data)) as Hle.
  { apply Zsum_le. intros k Hk. by eapply vehicle_travel_bound. }
  rewrite Zsum_add in Hle. lia.
Qed.

Lemma objective_bounds_travel_witness :
  ∃ e, objective ex_model = Some e ∧
       (inject_Z (Zsum ((λ k, route_travel (edge_weights ex_data)
                                (order ex_solution (R_ k))) <$> vehicles ex_data))
        <= eval ex_solution e)%Q ∧
       Zsum ((λ k, route_travel (edge_weights ex_data)
                     (order ex_solution (R_ k))) <$> vehicles ex_data) = 40.
Proof.
  eexists. split; [reflexivity|]. split; [|reflexivity].
  apply (objective_bounds_travel ex_data ex_model ex_solution _
           ex_model_built ex_solution_feasible).
  reflexivity.
Defined.

(** ** Reading the routes back *)

Lemma result2solution_lookup data sol (i : nat) route :
  result2solution data sol !! i = Some route
  ↔ Z.of_nat i ∈ vehicles data ∧ route = order sol (R_ (Z.of_nat i)).
Proof.
  unfold result2solution, vehicles. rewrite list_lookup_fmap, lookup_range_total.
  rewrite elem_of_range. case_decide as Hi; simpl.
  - replace (0 + Z.of_nat i) with (Z.of_nat i) by lia. split.
    + intros [= <-]. split; [lia | done].
    + by intros [_ ->].
  - split; [done|]. intros [? _]. lia.
Qed.

(** X20.  [result2solution] on a feasible assignment of a built model
    returns one route per vehicle; the route of vehicle [i] repeats no name,
    holds only names [T_{i}_{l}] of locations [l], starts with the start
    depot and ends with the end depot; and every client appears in the
    route of exactly one vehicle. *)
Theorem result2solution_routes data model sol :
  vehicle_routing_problem_time_windows data = Ok model →
  feasible model sol →
  length (result2solution data sol) = Z.to_nat (num_vehicles data) ∧
  (∀ (i : nat) route,
     result2solution data sol !! i = Some route →
     NoDup route ∧
     head route = Some (T__ (Z.of_nat i) 0) ∧
     last route = Some (T__ (Z.of_nat i) (num_locations data - 1)) ∧
     ∀ x, x ∈ route → ∃ l, 0 ≤ l < num_locations data ∧ x = T__ (Z.of_nat i) l) ∧
  (∀ c, 1 ≤ c ≤ num_locations data - 2 →
     ∃ (i : nat) route,
       result2solution data sol !! i = Some route ∧
       T__ (Z.of_nat i) c ∈ route ∧
       ∀ (j : nat) route' k,
         result2solution data sol !! j = Some route' → T__ k c ∈ route' →
         j = i ∧ k = Z.of_nat i).
Proof.
  intros H Hf. split; [|split].
  - unfold result2solution, vehicles, range. rewrite !length_fmap, length_seq.
    f_equal. lia.
  - intros i route [Hi ->]%result2solution_lookup.
    destruct (feasible_route _ _ _ _ H Hi Hf) as (Hseq & _).
    destruct (feasible_depot _ _ _ _ H Hi Hf) as (_ & _ & Hhd & Hlast).
    repeat split; [apply Hseq | done | done |].
    intros x Hx. apply (route_order data) in Hx as (l & Hl & -> & _); [|done].
    exists l. by rewrite <- elem_of_locations.
  - intros c Hc%elem_of_clients.
    destruct (served_by_some_vehicle _ _ _ _ H Hc Hf)
      as (k & s & e & Hk & _ & Hks & _ & Huniq).
    pose proof (proj1 (elem_of_vehicles _ _) Hk) as Hkr.
    exists (Z.to_nat k), (order sol (R_ k)).
    replace (Z.of_nat (Z.to_nat k)) with k by lia.
    destruct (feasible_route _ _ _ _ H Hk Hf) as (Hseq & _).
    split; [|split].
    + apply result2solution_lookup.
      by replace (Z.of_nat (Z.to_nat k)) with k by lia.
    + apply (route_order data); [done|]. exists c.
      split; [by apply clients_are_locations|]. split; [done|].
      unfold present. rewrite Hks. eauto.
    + intros j route' k' [Hj ->]%result2solution_lookup Hin.
      destruct (feasible_route _ _ _ _ H Hj Hf) as (Hseq' & _).
      apply (route_order data) in Hin as (l & _ & Heq & Hp); [|done].
      injection Heq as -> ->.
      assert (Z.of_nat j = k) as <- by (by apply Huniq).
      split; [lia | done].
Qed.

Lemma result2solution_routes_witness :
  result2solution ex_data ex_solution
  = [[T__ 0 0; T__ 0 1; T__ 0 2; T__ 0 3]; [T__ 1 0; T__ 1 3]] ∧
  ∃ (i : nat) route,
    result2solution ex_data ex_solution !! i = Some route ∧
    T__ (Z.of_nat i) 2 ∈ route ∧
    ∀ (j : nat) route' k,
      result2solution ex_data ex_solution !! j = Some route' → T__ k 2 ∈ route' →
      j = i ∧ k = Z.of_nat i.
Proof.
  split; [reflexivity|].
  destruct (result2solution_routes ex_data ex_model ex_solution
              ex_model_built ex_solution_feasible) as (_ & _ & Hclients).
  apply Hclients. simpl. lia.
Defined.
